(** * Artist-identity resolution and resumable enrichment

    A shallow embedding of the decision logic of
    [music_lyrics_llm_analysis/scrape/scrape_artist_data.py]
    ([expand_with_dict], [find_musicbrainz_url], [get_artist_details] and the
    two crawl loops of [main]) and of the song-search loop of
    [scripts/scrape/scrape_genius.py], followed by the properties of the
    specification that are settled against it.

    Conventions of the embedding:
    - a pandas cell that may be null ([None] / [NaN]) is an [option string];
    - a data frame is the list of its rows, the index label of a row being
      its position (the frames are read from parquet files written with
      [index=False], or rebuilt with [ignore_index=True]);
    - the outside world (HTTP servers, the random generator) is an oracle
      passed as an argument;
    - Python exceptions are values of [exn]; a computation is a function from
      the program state to an outcome and the new state, so that what was
      written before an exception is raised stays written. *)

From Stdlib Require Import Ascii String QArith.
From stdpp Require Import gmap strings list sorting pretty.

Local Close Scope Q_scope.

Local Open Scope string_scope.
Local Open Scope list_scope.

(** ** Exceptions and the state-and-exception monad *)

Inductive exn :=
  | ConnectionError
  | JSONDecodeError
  | KeyError
  | IndexError
  | TypeError
  | AttributeError
  | ValueError.

Inductive result (A : Type) :=
  | Ok (a : A)
  | Raise (e : exn).
Arguments Ok {A} a.
Arguments Raise {A} e.

Definition result_bind {A B} (r : result A) (k : A → result B) : result B :=
  match r with
  | Ok a => k a
  | Raise e => Raise e
  end.

Notation "'let?' x ':=' r 'in' k" := (result_bind r (λ x, k))
  (at level 10, x name, r at level 100, k at level 200).

Definition M (S A : Type) : Type := S → result A * S.

Definition ret {S A} (a : A) : M S A := λ s, (Ok a, s).
Definition raise {S A} (e : exn) : M S A := λ s, (Raise e, s).
Definition bind {S A B} (m : M S A) (k : A → M S B) : M S B :=
  λ s, match m s with
       | (Ok a, s') => k a s'
       | (Raise e, s') => (Raise e, s')
       end.
Definition get_state {S} : M S S := λ s, (Ok s, s).
Definition modify {S} (f : S → S) : M S unit := λ s, (Ok tt, f s).
Definition lift_result {S A} (r : result A) : M S A := λ s, (r, s).

(** [try: body except: handler], with a bare [except] clause: every
    exception of the body is caught; the state reached when it was raised is
    the state the handler starts from. *)
Definition try_except {S A} (body handler : M S A) : M S A :=
  λ s, match body s with
       | (Ok a, s') => (Ok a, s')
       | (Raise _, s') => handler s'
       end.

Notation "'let!' x ':=' m 'in' k" := (bind m (λ x, k))
  (at level 10, x name, m at level 100, k at level 200).
Notation "'run!' m 'in' k" := (bind m (λ _, k))
  (at level 10, m at level 100, k at level 200).

(** [for x in items: body x] *)
Fixpoint for_each {S A} (items : list A) (body : A → M S unit) : M S unit :=
  match items with
  | [] => ret tt
  | x :: rest => run! body x in for_each rest body
  end.

(** ** Strings *)

Definition lower_ascii (c : Ascii.ascii) : Ascii.ascii :=
  let n := Ascii.nat_of_ascii c in
  if (65 <=? n)%nat && (n <=? 90)%nat then Ascii.ascii_of_nat (n + 32) else c.

(** [str.lower] on ASCII text, where it changes the letters A to Z only. *)
Fixpoint lower (s : string) : string :=
  match s with
  | EmptyString => EmptyString
  | String c s' => String (lower_ascii c) (lower s')
  end.

(** The ASCII characters that [str.strip] removes: the six of
    [Ascii.is_space] and the four separators 28 to 31. *)
Definition is_whitespace (c : Ascii.ascii) : bool :=
  Ascii.is_space c
  || ((28 <=? Ascii.nat_of_ascii c)%nat && (Ascii.nat_of_ascii c <=? 31)%nat).

Fixpoint lstrip (s : string) : string :=
  match s with
  | EmptyString => EmptyString
  | String c s' => if is_whitespace c then lstrip s' else s
  end.

(** [str.strip()], on ASCII text. *)
Definition strip (s : string) : string :=
  String.rev (lstrip (String.rev (lstrip s))).

(** [sep.join(tokens)] *)
Fixpoint join (sep : string) (tokens : list string) : string :=
  match tokens with
  | [] => ""
  | [t] => t
  | t :: rest => t +:+ sep +:+ join sep rest
  end.

(** [s.split(sep)[-1]]: what follows the last occurrence of [sep]. *)
Fixpoint last_segment_go (sep : Ascii.ascii) (s cur : string) : string :=
  match s with
  | EmptyString => String.rev cur
  | String c s' =>
      if bool_decide (c = sep) then last_segment_go sep s' ""
      else last_segment_go sep s' (String c cur)
  end.
Definition last_segment (sep : Ascii.ascii) (s : string) : string :=
  last_segment_go sep s "".

(** ** The similarity scorer ([rapidfuzz.fuzz.token_sort_ratio])

    The scorer belongs to a library, not to the repository. It is modelled
    from the library's definition: both strings are split on white space,
    their tokens sorted and joined by one space, and the two results compared
    by the normalised Indel similarity, [100 * 2 * lcs / (len1 + len2)]. The
    library computes a double; the model keeps the exact rational, which
    orders scores the same way for strings of any realistic length. The
    library counts code points and splits on all the white space of
    Unicode; a string being a sequence of bytes here, and [String.words]
    splitting on the six characters of [Ascii.is_space], the model is the
    scorer on ASCII text without the separators 28 to 31. *)

Fixpoint lcs (xs ys : list Ascii.ascii) : nat :=
  match xs with
  | [] => 0
  | x :: xs' =>
      (fix inner (ys : list Ascii.ascii) : nat :=
         match ys with
         | [] => 0
         | y :: ys' =>
             if bool_decide (x = y) then S (lcs xs' ys')
             else Nat.max (lcs xs' ys) (inner ys')
         end) ys
  end.

Definition ratio (s1 s2 : string) : Q :=
  let total := (String.length s1 + String.length s2)%nat in
  if (total =? 0)%nat then 100%Q
  else Qmake (200 * Z.of_nat (lcs (String.list_ascii_of_string s1)
                                 (String.list_ascii_of_string s2)))
             (Pos.of_nat total).

Definition sort_tokens (s : string) : string :=
  join " " (merge_sort String.le (String.words s)).

Definition token_sort_ratio (s1 s2 : string) : Q :=
  ratio (sort_tokens s1) (sort_tokens s2).

(** ** Best-match extraction ([rapidfuzz.process.extractOne])

    Also a library function, modelled from its documentation: the query and
    every choice go through [processor], each choice is scored against the
    query, and the first choice with the highest score is returned with its
    score and its index. No [score_cutoff] is passed by the caller, so a
    non-empty list of choices always gives a result. *)

Definition Qltb (a b : Q) : bool := negb (Qle_bool b a).

Section extract_one.
Context (scorer : string → string → Q) (processor : string → string).

Fixpoint extractOne_go (query : string) (choices : list string) (i : nat)
    (best : option (string * Q * nat)) : option (string * Q * nat) :=
  match choices with
  | [] => best
  | choice :: rest =>
      let score := scorer query (processor choice) in
      let best' :=
        match best with
        | None => Some (choice, score, i)
        | Some (_, best_score, _) =>
            if Qltb best_score score then Some (choice, score, i) else best
        end in
      extractOne_go query rest (S i) best'
  end.

Definition extractOne (query : string) (choices : list string)
    : option (string * Q * nat) :=
  extractOne_go (processor query) choices 0 None.
End extract_one.

(** ** The registry search ([find_musicbrainz_url]) *)

(** One element of the ["artists"] array of the registry's answer. The keys
    the code reads without a test (["score"], ["name"], ["id"],
    ["life-span"]) are fields; the keys it tests with [in] are options. An
    area is kept by the only thing read from it, its ["id"]. *)
Record life_span := { ls_begin : option string; ls_end : option string }.

Record candidate := {
  c_id : string;
  c_name : string;
  c_score : Z;
  c_type : option string;
  c_gender : option string;
  c_country : option string;
  c_life_span : life_span;
  c_begin_area : option string;
  c_end_area : option string
}.

(** What [requests.get] and [res.json()] can give: no answer at all (the
    request raises), or an answer with a status code whose body is either
    not JSON or an object that may lack the ["artists"] key. *)
Inductive json_body :=
  | NotJson
  | JsonObject (artists : option (list candidate)).

Inductive http_response :=
  | RequestFailed
  | Response (status_code : Z) (body : json_body).

(** The dictionary [query_dict]. *)
Record mb_data := {
  q_type : option string;
  q_gender : option string;
  q_country : option string;
  q_time_begin : option string;
  q_time_end : option string;
  q_begin_area_id : option string;
  q_end_area_id : option string;
  q_mb_id : string
}.

Definition query_dict (m : candidate) : mb_data :=
  {| q_type := (λ x, strip (lower x)) <$> c_type m;
     q_gender := (λ x, strip (lower x)) <$> c_gender m;
     q_country := (λ x, strip (lower x)) <$> c_country m;
     q_time_begin := ls_begin (c_life_span m);
     q_time_end := ls_end (c_life_span m);
     q_begin_area_id := c_begin_area m;
     q_end_area_id := c_end_area m;
     q_mb_id := strip (lower (c_id m)) |}.

(** Lines 56 to 62: the index of the selected match. [matches[0]] raises on
    the empty list; unpacking the result of [extractOne] raises when there
    is none. *)
Definition select_match (artist_name : string) (matches : list candidate)
    : result nat :=
  match matches with
  | [] => Raise IndexError
  | top :: _ =>
      if (c_score top =? 100)%Z then Ok 0%nat
      else
        match extractOne token_sort_ratio lower artist_name (c_name <$> matches) with
        | Some (_, _, idx) => Ok idx
        | None => Raise TypeError
        end
  end.

(** Lines 47 to 75, from the answer of the request on. A status other than
    200 falls through the [if] and the function returns [None]. *)
Definition parse_musicbrainz (artist_name : string) (res : http_response)
    : result (option mb_data) :=
  match res with
  | RequestFailed => Raise ConnectionError
  | Response status_code body =>
      if (status_code =? 200)%Z then
        match body with
        | NotJson => Raise JSONDecodeError
        | JsonObject None => Raise KeyError
        | JsonObject (Some matches) =>
            match select_match artist_name matches with
            | Raise e => Raise e
            | Ok idx =>
                match matches !! idx with
                | Some m => Ok (Some (query_dict m))
                | None => Raise IndexError
                end
            end
        end
      else Ok None
  end.

(** ** The detail page ([get_artist_details]) *)

(** The anchor of a favicon list item: its text and its [href] attribute. *)
Record anchor := { a_text : string; a_href : option string }.

(** The three list items looked up in the page: absent ([None]), present
    without an anchor ([Some None]), or present with one. *)
Record page := {
  wikidata_li : option (option anchor);
  discogs_li : option (option anchor);
  genius_li : option (option anchor)
}.

Inductive page_response :=
  | PageFailed
  | Page (p : page).

(** The dictionary [data_dict]. *)
Record info_data := {
  i_wikidata_id : string;
  i_discogs_id : string;
  i_genius_url : option string
}.

Definition anchor_href (li : option anchor) : result string :=
  match li with
  | None => Raise TypeError
  | Some a =>
      match a_href a with
      | Some h => Ok h
      | None => Raise KeyError
      end
  end.

Definition parse_artist_details (res : page_response) : result info_data :=
  match res with
  | PageFailed => Raise ConnectionError
  | Page p =>
      let? wikidata_id :=
        match wikidata_li p with
        | None => Ok ""
        | Some None => Raise AttributeError
        | Some (Some a) => Ok (strip (last_segment ":" (a_text a)))
        end in
      let? discogs_id :=
        match discogs_li p with
        | None => Ok ""
        | Some li => let? h := anchor_href li in Ok (last_segment "/" h)
        end in
      let? genius_url :=
        match genius_li p with
        | None => Ok None
        | Some li => let? h := anchor_href li in Ok (Some h)
        end in
      Ok {| i_wikidata_id := wikidata_id;
            i_discogs_id := discogs_id;
            i_genius_url := genius_url |}
  end.

(** ** The artists snapshot and the program state *)

(** One row of [df_artists]. *)
Record ArtistRecord := {
  artist : string;
  type : option string;
  gender : option string;
  country : option string;
  time_begin : option string;
  time_end : option string;
  begin_area_id : option string;
  end_area_id : option string;
  mb_id : option string;
  wikidata_id : option string;
  discogs_id : option string;
  genius_url : option string
}.

(** What the program does to the outside, in the order it does it. *)
Inductive event :=
  | RegistryQuery (artist_name : string)
  | DetailFetch (mb_id : string)
  | Printed (line : string)
  | Slept (seconds : Z).

Record World := { df_artists : list ArtistRecord; log : list event }.

Definition emit (e : event) : M World unit :=
  modify (λ w, {| df_artists := df_artists w; log := log w ++ [e] |}).

(** [time.sleep(seconds)] and [print(line)] *)
Definition sleep (seconds : Z) : M World unit := emit (Slept seconds).
Definition print (line : string) : M World unit := emit (Printed line).

(** [df_artists.loc[r, column]]: a label that is not in the index raises. *)
Definition loc {A} (r : nat) (column : ArtistRecord → A) : M World A :=
  λ w, match df_artists w !! r with
       | Some row => (Ok (column row), w)
       | None => (Raise KeyError, w)
       end.

(** The outside world: what the registry and the detail site answer to a
    request, given how many events came before it. *)
Record Network := {
  registry : nat → string → http_response;
  detail_site : nat → string → page_response
}.

Definition find_musicbrainz_url (net : Network) (artist_name : string)
    : M World (option mb_data) :=
  let! w := get_state in
  run! emit (RegistryQuery artist_name) in
  lift_result (parse_musicbrainz artist_name
                 (registry net (length (log w)) artist_name)).

Definition get_artist_details (net : Network) (mb_id : string)
    : M World info_data :=
  let! w := get_state in
  run! emit (DetailFetch mb_id) in
  lift_result (parse_artist_details (detail_site net (length (log w)) mb_id)).

(** [for v in mb_data.keys(): df_artists.loc[r, v] = mb_data[v]] *)
Definition apply_mb_data (d : mb_data) (row : ArtistRecord) : ArtistRecord :=
  {| artist := artist row;
     type := q_type d;
     gender := q_gender d;
     country := q_country d;
     time_begin := q_time_begin d;
     time_end := q_time_end d;
     begin_area_id := q_begin_area_id d;
     end_area_id := q_end_area_id d;
     mb_id := Some (q_mb_id d);
     wikidata_id := wikidata_id row;
     discogs_id := discogs_id row;
     genius_url := genius_url row |}.

(** [for v in info_dict.keys(): df_artists.loc[r, v] = info_dict[v]] *)
Definition apply_info_data (d : info_data) (row : ArtistRecord) : ArtistRecord :=
  {| artist := artist row;
     type := type row;
     gender := gender row;
     country := country row;
     time_begin := time_begin row;
     time_end := time_end row;
     begin_area_id := begin_area_id row;
     end_area_id := end_area_id row;
     mb_id := mb_id row;
     wikidata_id := Some (i_wikidata_id d);
     discogs_id := Some (i_discogs_id d);
     genius_url := i_genius_url d |}.

Definition update_row (r : nat) (f : ArtistRecord → ArtistRecord) : M World unit :=
  modify (λ w, {| df_artists := alter f r (df_artists w); log := log w |}).

(** ** The work-lists ([df_artists.query(...).index]) *)

Definition is_null {A} (cell : option A) : bool :=
  match cell with
  | None => true
  | Some _ => false
  end.

(** The labels of the rows that satisfy [p], in row order, the first row
    having label [i]. *)
Fixpoint index_from {A} (p : A → bool) (i : nat) (rows : list A) : list nat :=
  match rows with
  | [] => []
  | row :: rest =>
      if p row then i :: index_from p (S i) rest else index_from p (S i) rest
  end.

Definition query_index {A} (p : A → bool) (rows : list A) : list nat :=
  index_from p 0 rows.

(** ["mb_id!=mb_id"] *)
Definition needs_lookup (row : ArtistRecord) : bool := is_null (mb_id row).

(** ["genius_url!=genius_url and mb_id==mb_id"] *)
Definition needs_details (row : ArtistRecord) : bool :=
  is_null (genius_url row) && negb (is_null (mb_id row)).

(** ** The crawl loops of [main] *)

(** What an f-string makes of a cell. *)
Definition format_cell (cell : option string) : string := default "None" cell.

Definition lookup_body (net : Network) (r : nat) : M World unit :=
  try_except
    (let! name := loc r artist in
     let! mb_data := find_musicbrainz_url net name in
     match mb_data with
     | Some d => update_row r (apply_mb_data d)
     | None => sleep 30
     end)
    (let! name := loc r artist in
     run! print name in
     sleep 10).

Definition details_body (net : Network) (r : nat) : M World unit :=
  try_except
    (let! id := loc r mb_id in
     let! info_dict := get_artist_details net (format_cell id) in
     update_row r (apply_info_data info_dict))
    (let! name := loc r artist in
     run! print name in
     sleep 10).

(** The first loop of [main]: its work-list is computed from the snapshot
    as it is when the loop starts. *)
Definition lookup_stage (net : Network) : M World unit :=
  let! w := get_state in
  for_each (query_index needs_lookup (df_artists w)) (lookup_body net).

(** The second loop of [main], likewise. *)
Definition details_stage (net : Network) : M World unit :=
  let! w := get_state in
  for_each (query_index needs_details (df_artists w)) (details_body net).

(** [main], from the loaded snapshot to the snapshot that is saved. *)
Definition main (net : Network) : M World unit :=
  run! lookup_stage net in
  details_stage net.

(** A run over a snapshot: the saved snapshot and the events of the run, or
    the exception that ended it. *)
Definition run (net : Network) (snapshot : list ArtistRecord)
    : result unit * World :=
  main net {| df_artists := snapshot; log := [] |}.

(** The requests of a run, in order. *)
Definition registry_queries (evs : list event) : list string :=
  omap (λ e, match e with RegistryQuery name => Some name | _ => None end) evs.

Definition detail_fetches (evs : list event) : list string :=
  omap (λ e, match e with DetailFetch id => Some id | _ => None end) evs.

(** ** The artist expander ([expand_with_dict]) *)

Module Expander.
Section rows.
Context {R : Type}.

(** A row of the frame: the cell of the artist column, and the cells of
    all the other columns. The frame is taken to have the artist column and
    no column that is already called [_artist_list]. *)
Record Row := { artist : option string; others : R }.

(** [df[artist_col].map(mapping).where(lambda s: s.notna(),
    other=df[artist_col].apply(lambda x: [x]))], for one cell. *)
Definition artist_list (mapping : gmap string (list string))
    (cell : option string) : list (option string) :=
  match cell ≫= (mapping !!.) with
  | Some names => Some <$> names
  | None => [cell]
  end.

(** [explode], for one row: one row per element of the list, and one row
    with a null cell for the empty list. *)
Definition explode (rest : R) (cells : list (option string)) : list Row :=
  match cells with
  | [] => [ {| artist := None; others := rest |} ]
  | _ => (λ cell, {| artist := cell; others := rest |}) <$> cells
  end.

(** The four steps of the function: the list column; the frame without the
    artist column, with the list column added; the explosion of that column,
    which the renaming turns into the artist column again. *)
Definition expand_with_dict (df : list Row)
    (mapping : gmap string (list string)) : list Row :=
  let lists := (λ row, artist_list mapping (artist row)) <$> df in
  let out := zip (others <$> df) lists in
  out ≫= (λ '(rest, cells), explode rest cells).

(** The expansion as the specification words it: the rows a single input
    row stands for, and their number. *)
Definition rows_of (mapping : gmap string (list string)) (row : Row) : list Row :=
  match artist row ≫= (mapping !!.) with
  | Some names => (λ name, {| artist := Some name; others := others row |}) <$> names
  | None => [row]
  end.

Definition count_of (mapping : gmap string (list string)) (row : Row) : nat :=
  match artist row ≫= (mapping !!.) with
  | Some names => length names
  | None => 1
  end.

End rows.
Arguments Row : clear implicits.
(** Line 198 of [main]: of the answer of the language model, only the
    entries of more than one name are kept. *)
Definition keep_splits (chat_dict : gmap string (list string))
    : gmap string (list string) :=
  filter (λ entry, 1 < length entry.2) chat_dict.

(** Lines 198 and 201 of [main]. *)
Definition expand_artists {R} (df : list (Row R))
    (chat_dict : gmap string (list string)) : list (Row R) :=
  expand_with_dict df (keep_splits chat_dict).

End Expander.

(** ** The song search of the Genius scraper *)

Module Genius.

(** One row of [df_songs]. *)
Record SongRecord := {
  artist : string;
  song : string;
  genius_artist : option string;
  genius_song : option string;
  genius_url : option string;
  lyrics : option string
}.

(** One element of [res_dict["response"]["hits"]]. *)
Record hit := {
  h_type : string;
  artist_names : string;
  primary_artist_names : string;
  title : string;
  url : string
}.

(** What a search request and the reading of its answer can give: an
    exception (the request fails, the body is not JSON, a key is missing),
    or the list of hits. *)
Inductive search_response :=
  | SearchFailed (e : exn)
  | SearchHits (hits : list hit).

Inductive event :=
  | SearchQuery (query : string).

Record World := { df_songs : list SongRecord; log : list event }.

Section search.
(** [_normalize] rests on Unicode tables and regular expressions; the
    search is embedded for any such function. *)
Context (_normalize : string → string).

(** One pass of [find_song_index] over the hits, from index [i] on. *)
Fixpoint find_pass (names : hit → string) (target_title target_artist : string)
    (i : nat) (hits : list hit) : option nat :=
  match hits with
  | [] => None
  | h :: rest =>
      if bool_decide (h_type h ≠ "song")
      then find_pass names target_title target_artist (S i) rest
      else if bool_decide (_normalize (names h) = target_artist)
              && bool_decide (_normalize (title h) = target_title)
      then Some i
      else find_pass names target_title target_artist (S i) rest
  end.

Definition find_song_index (hits : list hit) (song_name artist_name : string) : Z :=
  let target_title := _normalize song_name in
  let target_artist := _normalize artist_name in
  match find_pass artist_names target_title target_artist 0 hits with
  | Some i => Z.of_nat i
  | None =>
      match find_pass primary_artist_names target_title target_artist 0 hits with
      | Some i => Z.of_nat i
      | None => (-1)%Z
      end
  end.

(** The three assignments of lines 146 to 148. *)
Definition populate (h : hit) (row : SongRecord) : SongRecord :=
  {| artist := artist row;
     song := song row;
     genius_artist := Some (artist_names h);
     genius_song := Some (title h);
     genius_url := Some (url h);
     lyrics := lyrics row |}.

Definition loc {A} (i : nat) (column : SongRecord → A) : M World A :=
  λ w, match df_songs w !! i with
       | Some row => (Ok (column row), w)
       | None => (Raise KeyError, w)
       end.

Definition update_row (i : nat) (f : SongRecord → SongRecord) : M World unit :=
  modify (λ w, {| df_songs := alter f i (df_songs w); log := log w |}).

(** The search request with its answer read down to the hits; [api] is the
    outside world. *)
Definition search (api : nat → string → search_response) (query : string)
    : M World (list hit) :=
  λ w, let w' := {| df_songs := df_songs w; log := log w ++ [SearchQuery query] |} in
       match api (length (log w)) query with
       | SearchFailed e => (Raise e, w')
       | SearchHits hits => (Ok hits, w')
       end.

(** [hits[idx_hit]] *)
Definition hit_at (hits : list hit) (idx_hit : Z) : M World hit :=
  match hits !! Z.to_nat idx_hit with
  | Some h => ret h
  | None => raise IndexError
  end.

(** The body of the loop of lines 130 to 164. There is no [try] around it. *)
Definition search_body (api : nat → string → search_response) (i : nat)
    : M World unit :=
  let! song_name := loc i song in
  let! artist_name := loc i artist in
  let! hits := search api song_name in
  let idx_hit := find_song_index hits song_name artist_name in
  if bool_decide (idx_hit ≠ (-1)%Z) then
    let! h := hit_at hits idx_hit in
    update_row i (populate h)
  else
    let! hits := search api (song_name +:+ " by " +:+ artist_name) in
    let idx_hit := find_song_index hits song_name artist_name in
    if bool_decide (idx_hit ≠ (-1)%Z) then
      let! h := hit_at hits idx_hit in
      update_row i (populate h)
    else ret tt.

(** [numpy.random.permutation(len)], from which [sample] takes its rows.
    The generator is an oracle: [drawn] names labels in the order the
    generator comes up with them. A label that is not one of the frame, or
    that was named already, is passed over, and the labels the oracle does
    not name follow in row order: whatever the oracle says, the result is
    an arrangement of the labels of the frame, and every arrangement is the
    result for some oracle. *)
Definition permutation (len : nat) (drawn : list nat) : list nat :=
  let named := remove_dups (filter (λ i, (i < len)%nat) drawn) in
  named ++ list_difference (seq 0 len) named.

(** [df_songs.sample(n)]: [n] rows drawn without replacement, which are the
    first [n] labels of a permutation of the labels, in that order. Asking
    for more rows than there are raises. *)
Definition sample (n : nat) (df : list SongRecord) (drawn : list nat)
    : result (list nat) :=
  if (length df <? n)%nat then Raise ValueError
  else Ok (take n (permutation (length df) drawn)).

(** The draws the generator can make. *)
Definition is_sample (n : nat) (df : list SongRecord) (drawn : list nat) : Prop :=
  NoDup drawn ∧ length drawn = n ∧ ∀ i, i ∈ drawn → (i < length df)%nat.

(** ["genius_url!=genius_url"] *)
Definition needs_search (row : SongRecord) : bool := is_null (genius_url row).

(** [.query("genius_url!=genius_url").index], on the sampled rows. *)
Definition pending_of (df : list SongRecord) (labels : list nat) : list nat :=
  filter (λ i, from_option needs_search false (df !! i) = true) labels.

Definition search_stage (api : nat → string → search_response)
    (drawn : list nat) : M World unit :=
  let! w := get_state in
  let! sampled := lift_result (sample 400 (df_songs w) drawn) in
  for_each (pending_of (df_songs w) sampled) (search_body api).

End search.
(** *** The lyrics of a song ([get_lyrics_data]) and the second loop *)

(** [s.startswith(old)] *)
Fixpoint starts_with (old s : string) : bool :=
  match old, s with
  | EmptyString, _ => true
  | String a old', String b s' => bool_decide (a = b) && starts_with old' s'
  | String _ _, EmptyString => false
  end.

(** [s.replace(old, "")] for a non-empty [old]: the occurrences of [old] are
    removed from left to right, the search going on after each removed
    occurrence; [skip] counts the characters of an occurrence that are still
    to be dropped. *)
Fixpoint remove_go (old : string) (skip : nat) (s : string) : string :=
  match s with
  | EmptyString => EmptyString
  | String c s' =>
      match skip with
      | S k => remove_go old k s'
      | O =>
          if starts_with old s
          then remove_go old (String.length old - 1) s'
          else String c (remove_go old 0 s')
      end
  end.

(** [s.replace(old, "")]; with an empty [old] the string comes back as it
    is. *)
Definition remove_all (old s : string) : string :=
  match old with
  | EmptyString => s
  | String _ _ => remove_go old 0 s
  end.

(** What the parser finds in a song page: no lyrics container (the first
    [find] returns [None] and the second raises); a container without the
    excluded block (iterating over [None] raises); or the stripped strings
    of the children of the excluded block and of the children of the
    container. *)
Inductive lyrics_page :=
  | NoContainer
  | NoExcluded (lines : list string)
  | Lyrics (header_lines lines : list string).

Inductive lyrics_response :=
  | LyricsFailed
  | LyricsResponse (status_code : Z) (body : lyrics_page).

(** Lines 17 to 28, from the answer of the request on. *)
Definition parse_lyrics (res : lyrics_response) : result (option string) :=
  match res with
  | LyricsFailed => Raise ConnectionError
  | LyricsResponse status_code body =>
      if (status_code =? 200)%Z then
        match body with
        | NoContainer => Raise AttributeError
        | NoExcluded _ => Raise TypeError
        | Lyrics header_lines lines =>
            let header := join (String (ascii_of_nat 10) "") header_lines in
            let lyrics := join (String (ascii_of_nat 10) "") lines in
            Ok (Some (remove_all header lyrics))
        end
      else Ok None
  end.

(** The state of the second loop: the frame and the pages fetched so far. *)
Record LyricsWorld := { songs : list SongRecord; fetched : list string }.

Definition get_lyrics_data (site : nat → string → lyrics_response)
    (url_song : string) : M LyricsWorld (option string) :=
  λ w, (parse_lyrics (site (length (fetched w)) url_song),
        {| songs := songs w; fetched := fetched w ++ [url_song] |}).

Definition set_lyrics (text : string) (row : SongRecord) : SongRecord :=
  {| artist := artist row;
     song := song row;
     genius_artist := genius_artist row;
     genius_song := genius_song row;
     genius_url := genius_url row;
     lyrics := Some text |}.

(** ["genius_url==genius_url and lyrics!=lyrics"] *)
Definition needs_lyrics (row : SongRecord) : bool :=
  negb (is_null (genius_url row)) && is_null (lyrics row).

(** The body of the loop of lines 167 to 177. A null URL cannot be
    requested; [if song_lyrics] is false for [None] and for the empty
    string. *)
Definition lyrics_body (site : nat → string → lyrics_response) (i : nat)
    : M LyricsWorld unit :=
  λ w, match songs w !! i with
       | None => (Raise KeyError, w)
       | Some row =>
           match genius_url row with
           | None => (Raise ValueError, w)
           | Some url_song =>
               (let! song_lyrics := get_lyrics_data site url_song in
                match song_lyrics with
                | Some (String c text) =>
                    modify (λ w', {| songs := alter (set_lyrics (String c text)) i (songs w');
                                     fetched := fetched w' |})
                | Some EmptyString | None => ret tt
                end) w
           end
       end.

Definition lyrics_stage (site : nat → string → lyrics_response)
    : M LyricsWorld unit :=
  let! w := get_state in
  for_each (query_index needs_lyrics (songs w)) (lyrics_body site).

(** *** The frame of a first run, and a whole run *)

(** [drop_duplicates()]: the first occurrence of each row is kept. *)
Fixpoint drop_duplicates_go {A} `{EqDecision A} (seen l : list A) : list A :=
  match l with
  | [] => []
  | x :: l' =>
      if decide (x ∈ seen) then drop_duplicates_go seen l'
      else x :: drop_duplicates_go (x :: seen) l'
  end.

Definition drop_duplicates {A} `{EqDecision A} (l : list A) : list A :=
  drop_duplicates_go [] l.

(** Lines 122 to 127: the frame built from the (artist, song) columns of
    the chart when there is no songs file yet. *)
Definition first_frame (chart : list (string * string)) : list SongRecord :=
  (λ '(artist_name, song_name),
     {| artist := artist_name; song := song_name;
        genius_artist := None; genius_song := None;
        genius_url := None; lyrics := None |})
  <$> drop_duplicates chart.

(** What a run leaves: how it ended, the frame in memory, the requests it
    made, and the frame written to disk, if the run got that far. *)
Record Outcome := {
  ended : result unit;
  frame : list SongRecord;
  searches : list event;
  pages : list string;
  saved : option (list SongRecord)
}.

(** *** [_normalize], on ASCII text

    On a string of ASCII characters the NFKD form is the string itself and
    no character is a combining one, so that what is left of the function
    is: lower-casing, every character that is neither a word character nor
    white space replaced by a space, every run of white space replaced by
    one space, and the white space at both ends removed. The embedding is
    that of the function on such strings. *)

(** A character [\s] matches, and [str.strip] removes. *)
Definition py_space (c : ascii) : bool :=
  Ascii.is_space c
  || ((28 <=? nat_of_ascii c)%nat && (nat_of_ascii c <=? 31)%nat).

(** An ASCII character [\w] matches. *)
Definition is_word (c : ascii) : bool :=
  let n := nat_of_ascii c in
  ((48 <=? n)%nat && (n <=? 57)%nat)
  || ((65 <=? n)%nat && (n <=? 90)%nat)
  || ((97 <=? n)%nat && (n <=? 122)%nat)
  || (n =? 95)%nat.

(** [re.sub(r"[^\w\s]", " ", s)], for one character. *)
Definition punctuation_to_space (c : ascii) : ascii :=
  if is_word c || py_space c then c else " "%char.

(** [re.sub(r"\s+", " ", s)]; [in_run] tells that the character before was
    white space. *)
Fixpoint collapse (in_run : bool) (l : list ascii) : list ascii :=
  match l with
  | [] => []
  | c :: l' =>
      if py_space c
      then (if in_run then collapse true l' else " "%char :: collapse true l')
      else c :: collapse false l'
  end.

Fixpoint lstrip_chars (l : list ascii) : list ascii :=
  match l with
  | [] => []
  | c :: l' => if py_space c then lstrip_chars l' else l
  end.

Fixpoint rstrip_chars (l : list ascii) : list ascii :=
  match l with
  | [] => []
  | c :: l' =>
      match rstrip_chars l' with
      | [] => if py_space c then [] else [c]
      | kept => c :: kept
      end
  end.

Definition _normalize (s : string) : string :=
  match s with
  | EmptyString => EmptyString
  | _ =>
      let s1 := lower s in
      let s2 := punctuation_to_space <$> list_ascii_of_string s1 in
      let s3 := collapse false s2 in
      string_of_list_ascii (lstrip_chars (rstrip_chars s3))
  end.

End Genius.

Module GeniusRun.
Import Genius.
Section run.
Context (_normalize : string → string).
Context (api : nat → string → search_response).
Context (site : nat → string → lyrics_response).

(** [main], lines 129 to 181, from the loaded frame on: the two loops, then
    the writing of the file. *)
Definition main (drawn : list nat) (snapshot : list SongRecord) : Outcome :=
  match search_stage _normalize api drawn {| df_songs := snapshot; log := [] |} with
  | (Raise e, w) =>
      {| ended := Raise e; frame := df_songs w; searches := log w;
         pages := []; saved := None |}
  | (Ok _, w) =>
      match lyrics_stage site {| songs := df_songs w; fetched := [] |} with
      | (Raise e, lw) =>
          {| ended := Raise e; frame := songs lw; searches := log w;
             pages := fetched lw; saved := None |}
      | (Ok _, lw) =>
          {| ended := Ok tt; frame := songs lw; searches := log w;
             pages := fetched lw; saved := Some (songs lw) |}
      end
  end.

End run.
End GeniusRun.

(** ** Vocabulary of the statements *)

(** The similarity the matcher maximises: the processor lower-cases the
    query and the display name of the candidate alike. *)
Definition similarity (artist_name : string) (m : candidate) : Q :=
  token_sort_ratio (lower artist_name) (lower (c_name m)).

(** What the registry answers to the request made for [row] in the state
    [w], as the code reads it; likewise for the detail site. *)
Definition registry_answer (net : Network) (w : World) (row : ArtistRecord)
    : result (option mb_data) :=
  parse_musicbrainz (artist row) (registry net (length (log w)) (artist row)).

Definition detail_answer (net : Network) (w : World) (row : ArtistRecord)
    : result info_data :=
  parse_artist_details
    (detail_site net (length (log w)) (format_cell (mb_id row))).

(** What a loop may have done to a row by the time it ends. *)
Definition lookup_changes (row row' : ArtistRecord) : Prop :=
  row' = row ∨ ∃ d, row' = apply_mb_data d row.

Definition details_changes (row row' : ArtistRecord) : Prop :=
  row' = row ∨ ∃ d, row' = apply_info_data d row.

(** The frame the first loop of a run leaves, from which the second loop
    starts. *)
Definition frame_after_lookup (net : Network) (snapshot : list ArtistRecord)
    : list ArtistRecord :=
  df_artists (lookup_stage net ({| df_artists := snapshot; log := [] |})).2.

(** What the first loop may have done to a row: nothing, or written onto it
    the dictionary read from an answer the registry gave for its artist. *)
Definition resolved_by (net : Network) (row row' : ArtistRecord) : Prop :=
  row' = row
  ∨ ∃ time d,
      parse_musicbrainz (artist row) (registry net time (artist row)) = Ok (Some d)
      ∧ row' = apply_mb_data d row.

(** Events that are neither a registry query nor a detail fetch. *)
Definition is_quiet (e : event) : bool :=
  match e with
  | Printed _ | Slept _ => true
  | _ => false
  end.

(** A state with nothing done yet. *)
Definition fresh (snapshot : list ArtistRecord) : World :=
  {| df_artists := snapshot; log := [] |}.

(** ** Four sentences of the specification, as they are worded *)

(** The part of the completion invariant that speaks of a scrape that
    completed: when every detail page of a first run can be read, an
    identifier fetched in that run is not fetched again by the run that
    starts from the snapshot it saved. *)
Definition never_rescraped_after_completed_attempt : Prop :=
  ∀ (net1 net2 : Network) (snapshot : list ArtistRecord) (w1 w2 : World)
    (id : string),
    (∀ time i, ∃ d, parse_artist_details (detail_site net1 time i) = Ok d) →
    run net1 snapshot = (Ok tt, w1) →
    run net2 (df_artists w1) = (Ok tt, w2) →
    id ∈ detail_fetches (log w1) →
    id ∉ detail_fetches (log w2).

(** Failure containment, for every crawl loop, the song search of the
    Genius scraper included: no run of a loop ends on the exception of one
    of its items. *)
Definition item_failures_never_end_a_run : Prop :=
  (∀ (net : Network) (snapshot : list ArtistRecord),
     ∃ w', run net snapshot = (Ok tt, w'))
  ∧ (∀ (_normalize : string → string)
       (api : nat → string → Genius.search_response)
       (drawn : list nat) (snapshot : list Genius.SongRecord),
       Genius.is_sample 400 snapshot drawn →
       ∃ w', Genius.search_stage _normalize api drawn
               {| Genius.df_songs := snapshot; Genius.log := [] |}
             = (Ok tt, w')).

(** The expander, for every mapping: the rows of the output are, row after
    row, the rows the mapping gives, and their number is the sum of the
    numbers the mapping gives. *)
Definition expansion_follows_every_mapping : Prop :=
  ∀ (df : list (Expander.Row nat)) (mapping : gmap string (list string)),
    Expander.expand_with_dict df mapping = df ≫= Expander.rows_of mapping
    ∧ length (Expander.expand_with_dict df mapping)
      = sum_list (Expander.count_of mapping <$> df).

(** The error taxonomy, for the registry: an answer whose status is not 200
    goes the way of a transport error, with its diagnostic and its short
    sleep. *)
Definition non_200_is_handled_as_transport_error : Prop :=
  ∀ (net : Network) (w : World) (r : nat) (row : ArtistRecord)
    (status_code : Z) (body : json_body),
    df_artists w !! r = Some row →
    registry net (length (log w)) (artist row) = Response status_code body →
    status_code ≠ 200%Z →
    lookup_body net r w
    = (Ok tt, {| df_artists := df_artists w;
                 log := log w ++ [RegistryQuery (artist row);
                                  Printed (artist row); Slept 10] |}).

(** ** Sample data *)

Definition no_life_span : life_span := {| ls_begin := None; ls_end := None |}.

Definition named (name id : string) (score : Z) : candidate :=
  {| c_id := id; c_name := name; c_score := score;
     c_type := Some "Group"; c_gender := None; c_country := Some "GB";
     c_life_span := no_life_span; c_begin_area := None; c_end_area := None |}.

Definition the_beatles : candidate := named "The Beatles" "B10BBBFC" 92.
Definition beatles_tribute : candidate := named "Beatles Tribute" "0C1A2EAA" 85.

(** A row nothing is known of yet, and a row the registry has resolved. *)
Definition new_row (name : string) : ArtistRecord :=
  {| artist := name; type := None; gender := None; country := None;
     time_begin := None; time_end := None; begin_area_id := None;
     end_area_id := None; mb_id := None; wikidata_id := None;
     discogs_id := None; genius_url := None |}.

Definition resolved_row (name id : string) : ArtistRecord :=
  {| artist := name; type := Some "group"; gender := None; country := Some "gb";
     time_begin := None; time_end := None; begin_area_id := None;
     end_area_id := None; mb_id := Some id; wikidata_id := None;
     discogs_id := None; genius_url := None |}.

(** A detail page without any of the three favicons. *)
Definition bare_page : page :=
  {| wikidata_li := None; discogs_li := None; genius_li := None |}.

(** Four networks: the registry answers 503; it cannot be reached; it
    answers with an empty candidate list; it knows the Beatles. *)
Definition bare_net : Network :=
  {| registry := λ _ _, Response 503 NotJson;
     detail_site := λ _ _, Page bare_page |}.

Definition unreachable_net : Network :=
  {| registry := λ _ _, RequestFailed; detail_site := λ _ _, PageFailed |}.

Definition no_match_net : Network :=
  {| registry := λ _ _, Response 200 (JsonObject (Some []));
     detail_site := λ _ _, Page bare_page |}.

Definition beatles_net : Network :=
  {| registry := λ _ _,
       Response 200 (JsonObject (Some [the_beatles; beatles_tribute]));
     detail_site := λ _ _, Page bare_page |}.

(** Four hundred songs still to be searched, and an API that is down. *)
Definition new_song (artist_name song_name : string) : Genius.SongRecord :=
  {| Genius.artist := artist_name; Genius.song := song_name;
     Genius.genius_artist := None; Genius.genius_song := None;
     Genius.genius_url := None; Genius.lyrics := None |}.

Definition many_songs : list Genius.SongRecord :=
  (λ i : nat, new_song "Queen" ("Track " +:+ pretty i)) <$> seq 0 400.

Definition api_down : nat → string → Genius.search_response :=
  λ _ _, Genius.SearchFailed ConnectionError.

(** A composite credit and a plain one, and two mappings for the first. *)
Definition credit (name : string) (x : nat) : Expander.Row nat :=
  {| Expander.artist := Some name; Expander.others := x |}.

Definition split_a_b : gmap string (list string) := {[ "A & B" := ["A"; "B"] ]}.
Definition split_to_nothing : gmap string (list string) := {[ "A & B" := [] ]}.

(** ** Vocabulary of the further properties *)

(** A hit that [find_song_index] accepts in the pass that reads the artist
    from [names]. *)
Definition exact_match (_normalize : string → string) (names : Genius.hit → string)
    (song_name artist_name : string) (h : Genius.hit) : Prop :=
  Genius.h_type h = "song"
  ∧ _normalize (names h) = _normalize artist_name
  ∧ _normalize (Genius.title h) = _normalize song_name.

(** A hit that [find_song_index] accepts for the song of [row], in one pass
    or the other. *)
Definition accepted (_normalize : string → string) (row : Genius.SongRecord)
    (h : Genius.hit) : Prop :=
  exact_match _normalize Genius.artist_names
    (Genius.song row) (Genius.artist row) h
  ∨ exact_match _normalize Genius.primary_artist_names
      (Genius.song row) (Genius.artist row) h.

(** What the search loop may have done to a row by the time it ends. *)
Definition search_changes (_normalize : string → string)
    (row row' : Genius.SongRecord) : Prop :=
  row' = row
  ∨ (Genius.genius_url row = None
     ∧ ∃ h, accepted _normalize row h ∧ row' = Genius.populate h row).

(** The two queries a turn of the search loop can make for a row. *)
Definition first_query (row : Genius.SongRecord) : string := Genius.song row.

Definition second_query (row : Genius.SongRecord) : string :=
  Genius.song row +:+ " by " +:+ Genius.artist row.

(** [old in s] *)
Definition occurs (old s : string) : Prop := ∃ a b, s = a +:+ old +:+ b.

(** What the lyrics loop may have done to a row by the time it ends. *)
Definition lyrics_changes (row row' : Genius.SongRecord) : Prop :=
  row' = row
  ∨ (Genius.needs_lyrics row = true
     ∧ ∃ text, text ≠ "" ∧ row' = Genius.set_lyrics text row).

(** The line feed the lines of a page are joined with. *)
Definition line_feed : string := String (ascii_of_nat 10) "".

(** The key of a row of the songs frame. *)
Definition song_key (row : Genius.SongRecord) : string * string :=
  (Genius.artist row, Genius.song row).

(** The seconds a run has slept. *)
Definition seconds_slept (evs : list event) : nat :=
  sum_list (omap (λ e, match e with Slept s => Some (Z.to_nat s) | _ => None end) evs).

(** The characters of a string; a string without white space at either
    end; a string without upper-case letter. *)
Definition chars (s : string) : list ascii := String.list_ascii_of_string s.

Definition trimmed (s : string) : Prop :=
  ∀ c, head (chars s) = Some c ∨ last (chars s) = Some c →
       Ascii.is_space c = false.

Definition is_upper (c : ascii) : bool :=
  (65 <=? nat_of_ascii c)%nat && (nat_of_ascii c <=? 90)%nat.

Definition lower_case (s : string) : Prop :=
  ∀ c, c ∈ chars s → is_upper c = false.

(** The strings the embedding of [_normalize] is about. *)
Definition is_ascii (s : string) : Prop :=
  Forall (λ c, (nat_of_ascii c < 128)%nat) (chars s).

(** A lower-case letter, a digit or an underscore. *)
Definition is_plain (c : ascii) : Prop :=
  Genius.is_word c = true ∧ is_upper c = false ∧ Genius.py_space c = false.

(** The shape of a normalised text after a character that was white space
    ([after_space]) or not: plain characters and single spaces, a space
    being followed by a plain character; [may_end] tells whether the text
    may end on a space. *)
Fixpoint shaped (may_end after_space : bool) (l : list ascii) : Prop :=
  match l with
  | [] => may_end = true ∨ after_space = false
  | c :: l' =>
      if Genius.py_space c
      then c = " "%char ∧ after_space = false ∧ shaped may_end true l'
      else is_plain c ∧ shaped may_end false l'
  end.

(** Normalised text: shaped, with no space at either end. *)
Definition canonical (l : list ascii) : Prop :=
  shaped false false l
  ∧ match l with
    | [] => True
    | c :: _ => Genius.py_space c = false
    end.

(** ** The similarity of the matcher, as the specification words it *)







(** ** The sampling of the song search, as it is worded *)

(** Whatever the snapshot, a run of the search loop runs over the pending
    rows of a sample of 400 distinct rows of the snapshot. *)
Definition every_run_searches_a_sample_of_400 : Prop :=
  ∀ (_normalize : string → string)
    (api : nat → string → Genius.search_response)
    (drawn : list nat) (snapshot : list Genius.SongRecord),
    ∃ sampled,
      Genius.is_sample 400 snapshot sampled
      ∧ Genius.search_stage _normalize api drawn
          {| Genius.df_songs := snapshot; Genius.log := [] |}
        = for_each (Genius.pending_of snapshot sampled)
            (Genius.search_body _normalize api)
            {| Genius.df_songs := snapshot; Genius.log := [] |}.

(** ** Sample data of the further properties *)

Definition song_hit (names primary song_title : string) : Genius.hit :=
  {| Genius.h_type := "song"; Genius.artist_names := names;
     Genius.primary_artist_names := primary; Genius.title := song_title;
     Genius.url := "https://genius.com/" +:+ song_title |}.

(** Two hits for [Under Pressure] by [Queen]: the first matches by its
    primary artist names only, the second by its artist names. *)
Definition duet_hit : Genius.hit :=
  song_hit "Queen & David Bowie" "Queen" "Under Pressure".

Definition solo_hit : Genius.hit := song_hit "QUEEN" "Queen" "Under pressure!".

(** The lines of a song page, the first two being those of its header. *)
Definition hey_jude_header : list string := ["12 Contributors"; "Hey Jude Lyrics"].

Definition hey_jude_lines : list string :=
  ["12 Contributors"; "Hey Jude Lyrics"; "Hey Jude"].

(** A row with nothing left to scrape, and a detail page with the three
    favicons. *)
Definition finished_row (name id address : string) : ArtistRecord :=
  {| artist := name; type := Some "group"; gender := None; country := Some "se";
     time_begin := None; time_end := None; begin_area_id := None;
     end_area_id := None; mb_id := Some id; wikidata_id := Some "Q254";
     discogs_id := Some "81013"; genius_url := Some address |}.

Definition abba_page : page :=
  {| wikidata_li :=
       Some (Some {| a_text := "Wikidata: Q254 "; a_href := None |});
     discogs_li :=
       Some (Some {| a_text := "Discogs";
                     a_href := Some "https://www.discogs.com/artist/81013" |});
     genius_li :=
       Some (Some {| a_text := "Genius";
                     a_href := Some "https://genius.com/artists/Abba" |}) |}.

(** * Properties *)

(** ** The identity matcher *)



Section extract_one_facts.
Context (scorer : string → string → Q) (processor : string → string).



End extract_one_facts.

(** Sorting makes the scorer blind to the order of the tokens. *)
Lemma sort_tokens_permutation (s1 s2 : string) :
  String.words s1 ≡ₚ String.words s2 → sort_tokens s1 = sort_tokens s2.
Proof.
  intros Hperm. unfold sort_tokens. f_equal.
  apply (Sorted_unique String.le).
  - apply Sorted_merge_sort, _.
  - apply Sorted_merge_sort, _.
  - by rewrite !merge_sort_Permutation.
Qed.

Lemma token_sort_ratio_permutation (s1 s1' s2 : string) :
  String.words s1 ≡ₚ String.words s1' →
  token_sort_ratio s1 s2 = token_sort_ratio s1' s2.
Proof.
  intros Hperm. unfold token_sort_ratio.
  by rewrite (sort_tokens_permutation s1 s1').
Qed.

Example token_order_is_ignored :
  (token_sort_ratio "beatles the" "the beatles" == 100)%Q.
Proof. vm_compute. reflexivity. Qed.

(** The scorer computes the similarity of the specification. *)
Lemma lcs_nil_r (xs : list ascii) : lcs xs [] = 0%nat.
Proof. by destruct xs. Qed.











(** The example of the specification, and the same candidates the other way
    round: the better name wins wherever it stands. *)
Example matcher_prefers_the_beatles :
  select_match "beatles" [the_beatles; beatles_tribute] = Ok 0%nat
  ∧ select_match "beatles" [beatles_tribute; the_beatles] = Ok 1%nat.
Proof. split; vm_compute; reflexivity. Qed.

(** A first candidate scored 100 wins against a better name, and of two
    equally similar names the first one is kept. *)
Example matcher_short_circuit_and_ties :
  select_match "beatles" [named "Beat" "1" 100; named "Beatles" "2" 99] = Ok 0%nat
  ∧ select_match "beatles" [named "x" "1" 50; named "The Beatles" "2" 40;
                            named "Beatles The" "3" 40] = Ok 1%nat.
Proof. split; vm_compute; reflexivity. Qed.

(** No similarity is too low: a name with nothing in common with the
    query is returned when it is the only one. *)
Example matcher_has_no_threshold :
  select_match "zzz" [named "abc" "1" 10] = Ok 0%nat
  ∧ (similarity "zzz" (named "abc" "1" 10) == 0)%Q.
Proof. split; vm_compute; reflexivity. Qed.

(** ** The work-lists *)

Lemma elem_of_index_from {A} (p : A → bool) (rows : list A) :
  ∀ i r, r ∈ index_from p i rows ↔
         ∃ row, (i ≤ r)%nat ∧ rows !! (r - i)%nat = Some row ∧ p row = true.
Proof.
  induction rows as [|row rest IH]; intros i r; simpl.
  - split; [by intros ?%elem_of_nil | by intros (? & ? & ? & ?)].
  - assert (r ∈ index_from p (S i) rest ↔
            ∃ row', (i ≤ r)%nat ∧ (row :: rest) !! (r - i)%nat = Some row'
                    ∧ p row' = true ∧ r ≠ i) as Htail.
    { rewrite IH. split.
      - intros (row' & Hle & Hrow' & Hp). exists row'.
        replace (r - i)%nat with (S (r - S i)) by lia. split_and!; auto; lia.
      - intros (row' & Hle & Hrow' & Hp & Hne). exists row'.
        replace (r - i)%nat with (S (r - S i)) in Hrow' by lia.
        split_and!; auto; lia. }
    destruct (p row) eqn:Hrow.
    + rewrite elem_of_cons, Htail. split.
      * intros [-> | (row' & ? & ? & ? & ?)]; [|eauto].
        exists row. rewrite Nat.sub_diag. auto.
      * intros (row' & Hle & Hrow' & Hp).
        destruct (decide (r = i)) as [->|Hne]; [by left|]. right. eauto 6.
    + rewrite Htail. split.
      * intros (row' & ? & ? & ? & ?); eauto.
      * intros (row' & Hle & Hrow' & Hp). exists row'. split_and!; auto.
        intros ->. rewrite Nat.sub_diag in Hrow'. simplify_eq/=. congruence.
Qed.

Lemma elem_of_query_index {A} (p : A → bool) (rows : list A) (r : nat) :
  r ∈ query_index p rows ↔ ∃ row, rows !! r = Some row ∧ p row = true.
Proof.
  unfold query_index. rewrite elem_of_index_from.
  rewrite Nat.sub_0_r. split.
  - intros (row & _ & ? & ?); eauto.
  - intros (row & ? & ?). exists row. split_and!; auto; lia.
Qed.

Lemma index_from_sorted {A} (p : A → bool) (rows : list A) :
  ∀ i, StronglySorted lt (index_from p i rows).
Proof.
  induction rows as [|row rest IH]; intros i; simpl; [constructor|].
  destruct (p row); [|apply IH].
  constructor; [apply IH|].
  apply Forall_forall. intros r (row' & Hle & _)%elem_of_index_from. lia.
Qed.

Lemma query_index_NoDup {A} (p : A → bool) (rows : list A) :
  NoDup (query_index p rows).
Proof.
  unfold query_index. generalize 0%nat.
  induction rows as [|row rest IH]; intros i; simpl; [constructor|].
  destruct (p row); [|apply IH].
  constructor; [|apply IH].
  intros (row' & Hle & _)%elem_of_index_from. lia.
Qed.

(** The rows of a work-list, read back from the frame, are the rows that
    satisfy the predicate, in row order. *)
Lemma index_from_rows {A B} (p : A → bool) (f : A → B) (rows pre : list A) :
  omap (λ r, f <$> (pre ++ rows) !! r) (index_from p (length pre) rows)
  = f <$> filter (λ row, p row = true) rows.
Proof.
  revert pre. induction rows as [|row rest IH]; intros pre; [done|].
  specialize (IH (pre ++ [row])).
  rewrite length_app, Nat.add_1_r, <- app_assoc in IH.
  change ([row] ++ rest) with (row :: rest) in IH.
  cbn [index_from]. rewrite filter_cons. destruct (p row) eqn:Hrow.
  - rewrite decide_True by done. cbn [omap list_omap].
    rewrite list_lookup_middle by done. cbn [fmap option_fmap option_map].
    rewrite fmap_cons. f_equal. apply IH.
  - rewrite decide_False by done. apply IH.
Qed.

Lemma query_index_rows {A B} (p : A → bool) (f : A → B) (rows : list A) :
  omap (λ r, f <$> rows !! r) (query_index p rows)
  = f <$> filter (λ row, p row = true) rows.
Proof. apply (index_from_rows p f rows []). Qed.

(** C2. The work-list of the registry lookup is exactly the rows whose
    [mb_id] is null, and the work-list of the detail scrape exactly the rows
    whose [genius_url] is null and whose [mb_id] is not, both in row order
    and without repetition. Each loop computes its list from the snapshot it
    finds when it starts, and from nothing else: there is no stored queue. *)
Theorem work_lists_scan_the_snapshot (snapshot : list ArtistRecord) :
  (∀ r, r ∈ query_index needs_lookup snapshot ↔
        ∃ row, snapshot !! r = Some row ∧ mb_id row = None)
  ∧ (∀ r, r ∈ query_index needs_details snapshot ↔
          ∃ row, snapshot !! r = Some row
                 ∧ genius_url row = None ∧ mb_id row ≠ None)
  ∧ StronglySorted lt (query_index needs_lookup snapshot)
  ∧ StronglySorted lt (query_index needs_details snapshot)
  ∧ (∀ net events,
       lookup_stage net {| df_artists := snapshot; log := events |}
       = for_each (query_index needs_lookup snapshot) (lookup_body net)
           {| df_artists := snapshot; log := events |})
  ∧ (∀ net events,
       details_stage net {| df_artists := snapshot; log := events |}
       = for_each (query_index needs_details snapshot) (details_body net)
           {| df_artists := snapshot; log := events |}).
Proof.
  split_and!.
  - intros r. rewrite elem_of_query_index. unfold needs_lookup.
    split; intros (row & Hrow & Hnull); exists row; split; auto.
    + by destruct (mb_id row).
    + by rewrite Hnull.
  - intros r. rewrite elem_of_query_index. unfold needs_details.
    split; intros (row & Hrow & Hnull); exists row; split; auto.
    + destruct (genius_url row), (mb_id row); simpl in *; done.
    + destruct Hnull as [-> Hset]. by destruct (mb_id row).
  - apply index_from_sorted.
  - apply index_from_sorted.
  - done.
  - done.
Qed.

Lemma work_lists_scan_the_snapshot_witness :
  (∀ r, r ∈ query_index needs_lookup
              [new_row "Queen"; resolved_row "Abba" "d87e52c5"] ↔
        ∃ row, [new_row "Queen"; resolved_row "Abba" "d87e52c5"] !! r = Some row
               ∧ mb_id row = None)
  ∧ (∀ r, r ∈ query_index needs_details
                [new_row "Queen"; resolved_row "Abba" "d87e52c5"] ↔
          ∃ row, [new_row "Queen"; resolved_row "Abba" "d87e52c5"] !! r = Some row
                 ∧ genius_url row = None ∧ mb_id row ≠ None).
Proof.
  destruct (work_lists_scan_the_snapshot
              [new_row "Queen"; resolved_row "Abba" "d87e52c5"])
    as (Hlookup & Hdetails & _).
  split; assumption.
Defined.

Example work_lists_of_two_rows :
  query_index needs_lookup [new_row "Queen"; resolved_row "Abba" "d87e52c5"] = [0%nat]
  ∧ query_index needs_details [new_row "Queen"; resolved_row "Abba" "d87e52c5"]
    = [1%nat].
Proof. split; reflexivity. Qed.

(** ** One turn of the lookup loop *)

Section lookup_turn.
Context (net : Network) (w : World) (r : nat) (row : ArtistRecord).
Context (Hrow : df_artists w !! r = Some row).

Lemma lookup_body_success (d : mb_data) :
  registry_answer net w row = Ok (Some d) →
  lookup_body net r w
  = (Ok tt, {| df_artists := alter (apply_mb_data d) r (df_artists w);
               log := log w ++ [RegistryQuery (artist row)] |}).
Proof.
  unfold registry_answer. intros Hanswer.
  unfold lookup_body, try_except, bind, loc, find_musicbrainz_url, bind,
    get_state, emit, modify, lift_result. simpl.
  rewrite Hrow. simpl. rewrite Hanswer. done.
Qed.

Lemma lookup_body_empty :
  registry_answer net w row = Ok None →
  lookup_body net r w
  = (Ok tt, {| df_artists := df_artists w;
               log := log w ++ [RegistryQuery (artist row); Slept 30] |}).
Proof.
  unfold registry_answer. intros Hanswer.
  unfold lookup_body, try_except, bind, loc, find_musicbrainz_url, bind,
    get_state, emit, modify, lift_result. simpl.
  rewrite Hrow. simpl. rewrite Hanswer. simpl.
  unfold sleep, emit, modify. simpl. by rewrite <- app_assoc.
Qed.

Lemma lookup_body_failure (e : exn) :
  registry_answer net w row = Raise e →
  lookup_body net r w
  = (Ok tt, {| df_artists := df_artists w;
               log := log w ++ [RegistryQuery (artist row);
                                Printed (artist row); Slept 10] |}).
Proof.
  unfold registry_answer. intros Hanswer.
  unfold lookup_body, try_except, bind, loc, find_musicbrainz_url, bind,
    get_state, emit, modify, lift_result. simpl.
  rewrite Hrow. simpl. rewrite Hanswer. simpl. rewrite Hrow.
  unfold print, sleep, emit, modify. simpl. by rewrite <- !app_assoc.
Qed.

End lookup_turn.

(** ** One turn of the details loop *)

Section details_turn.
Context (net : Network) (w : World) (r : nat) (row : ArtistRecord).
Context (Hrow : df_artists w !! r = Some row).

Lemma details_body_success (d : info_data) :
  detail_answer net w row = Ok d →
  details_body net r w
  = (Ok tt, {| df_artists := alter (apply_info_data d) r (df_artists w);
               log := log w ++ [DetailFetch (format_cell (mb_id row))] |}).
Proof.
  unfold detail_answer. intros Hanswer.
  unfold details_body, try_except, bind, loc, get_artist_details, bind,
    get_state, emit, modify, lift_result. simpl.
  rewrite Hrow. simpl. rewrite Hanswer. done.
Qed.

Lemma details_body_failure (e : exn) :
  detail_answer net w row = Raise e →
  details_body net r w
  = (Ok tt, {| df_artists := df_artists w;
               log := log w ++ [DetailFetch (format_cell (mb_id row));
                                Printed (artist row); Slept 10] |}).
Proof.
  unfold detail_answer. intros Hanswer.
  unfold details_body, try_except, bind, loc, get_artist_details, bind,
    get_state, emit, modify, lift_result. simpl.
  rewrite Hrow. simpl. rewrite Hanswer. simpl. rewrite Hrow.
  unfold print, sleep, emit, modify. simpl. by rewrite <- !app_assoc.
Qed.

End details_turn.

(** ** Loops *)

(** A loop whose every turn ends normally ends normally, and an invariant
    that follows the items already handled holds of all of them at the end. *)
Lemma for_each_invariant {S A} (body : A → M S unit)
    (P : list A → S → Prop) (items : list A) :
  (∀ handled x rest s,
     items = handled ++ x :: rest → P handled s →
     ∃ s', body x s = (Ok tt, s') ∧ P (handled ++ [x]) s') →
  ∀ s, P [] s → ∃ s', for_each items body s = (Ok tt, s') ∧ P items s'.
Proof.
  intros Hstep.
  assert (∀ rest handled s,
            items = handled ++ rest → P handled s →
            ∃ s', for_each rest body s = (Ok tt, s') ∧ P items s') as Hgen.
  { induction rest as [|x rest IH]; intros handled s Hitems HP.
    - exists s. rewrite app_nil_r in Hitems. by subst.
    - destruct (Hstep handled x rest s Hitems HP) as (s1 & Hbody & HP1).
      destruct (IH (handled ++ [x]) s1) as (s' & Hloop & HP'); [|done|].
      { by rewrite <- app_assoc. }
      exists s'. split; [|done].
      simpl. unfold bind. by rewrite Hbody. }
  intros s HP. by apply (Hgen items [] s).
Qed.

Lemma alter_as_insert {A} (f : A → A) (l : list A) (i : nat) (x : A) :
  l !! i = Some x → alter f i l = <[i := f x]> l.
Proof.
  revert i. induction l as [|y l IH]; intros [|i] Hi; simplify_eq/=; [done|].
  f_equal. by apply IH.
Qed.

Lemma quiet_events (evs : list event) :
  forallb is_quiet evs = true →
  registry_queries evs = [] ∧ detail_fetches evs = [].
Proof.
  induction evs as [|[] evs IH]; simpl; try done; intros H; by apply IH.
Qed.

Lemma filter_quiet (evs : list event) :
  forallb is_quiet evs = true → filter (λ e, is_quiet e = false) evs = [].
Proof.
  induction evs as [|e evs IH]; [done|]. simpl.
  intros [He Hevs]%andb_true_iff.
  rewrite filter_cons, decide_False by (by rewrite He). by apply IH.
Qed.

Lemma registry_queries_loud (evs : list event) :
  registry_queries (filter (λ e, is_quiet e = false) evs) = registry_queries evs.
Proof.
  induction evs as [|e evs IH]; [done|].
  rewrite filter_cons. destruct e; simpl; by rewrite ?IH.
Qed.

Lemma detail_fetches_loud (evs : list event) :
  detail_fetches (filter (λ e, is_quiet e = false) evs) = detail_fetches evs.
Proof.
  induction evs as [|e evs IH]; [done|].
  rewrite filter_cons. destruct e; simpl; by rewrite ?IH.
Qed.

Lemma registry_queries_app (evs1 evs2 : list event) :
  registry_queries (evs1 ++ evs2) = registry_queries evs1 ++ registry_queries evs2.
Proof. apply omap_app. Qed.

Lemma detail_fetches_app (evs1 evs2 : list event) :
  detail_fetches (evs1 ++ evs2) = detail_fetches evs1 ++ detail_fetches evs2.
Proof. apply omap_app. Qed.

(** Whatever the registry answers, a turn of the lookup loop ends normally,
    makes one registry query and no detail fetch, and either leaves the row
    as it is or writes one [query_dict] onto it. *)
Lemma lookup_body_turn (net : Network) (w : World) (r : nat) (row : ArtistRecord) :
  df_artists w !! r = Some row →
  ∃ row' quiet,
    lookup_body net r w
    = (Ok tt, {| df_artists := <[r := row']> (df_artists w);
                 log := log w ++ RegistryQuery (artist row) :: quiet |})
    ∧ lookup_changes row row'
    ∧ forallb is_quiet quiet = true.
Proof.
  intros Hrow. destruct (registry_answer net w row) as [[d|]|e] eqn:Hanswer.
  - exists (apply_mb_data d row), [].
    rewrite (lookup_body_success net w r row Hrow d Hanswer).
    rewrite (alter_as_insert _ _ _ _ Hrow).
    split_and!; [done | right; eauto | done].
  - exists row, [Slept 30].
    rewrite (lookup_body_empty net w r row Hrow Hanswer).
    rewrite list_insert_id by done.
    split_and!; [done | by left | done].
  - exists row, [Printed (artist row); Slept 10].
    rewrite (lookup_body_failure net w r row Hrow e Hanswer).
    rewrite list_insert_id by done.
    split_and!; [done | by left | done].
Qed.

Lemma details_body_turn (net : Network) (w : World) (r : nat) (row : ArtistRecord) :
  df_artists w !! r = Some row →
  ∃ row' quiet,
    details_body net r w
    = (Ok tt, {| df_artists := <[r := row']> (df_artists w);
                 log := log w ++ DetailFetch (format_cell (mb_id row)) :: quiet |})
    ∧ details_changes row row'
    ∧ forallb is_quiet quiet = true.
Proof.
  intros Hrow. destruct (detail_answer net w row) as [d|e] eqn:Hanswer.
  - exists (apply_info_data d row), [].
    rewrite (details_body_success net w r row Hrow d Hanswer).
    rewrite (alter_as_insert _ _ _ _ Hrow).
    split_and!; [done | right; eauto | done].
  - exists row, [Printed (artist row); Slept 10].
    rewrite (details_body_failure net w r row Hrow e Hanswer).
    rewrite list_insert_id by done.
    split_and!; [done | by left | done].
Qed.

(** A loop of turns, each of which rewrites at most the row it is given with
    a change allowed by [changes] and makes the requests [requests] extracts
    from the row: what it leaves behind. *)
Section crawl_loop.
Context (body : nat → M World unit).
Context (changes : ArtistRecord → ArtistRecord → Prop).
Context (request : ArtistRecord → event).
Context (Hrefl : ∀ row, changes row row).
Context (Hrequest : ∀ row, is_quiet (request row) = false).
Context (Hturn : ∀ w r row,
  df_artists w !! r = Some row →
  ∃ row' quiet,
    body r w = (Ok tt, {| df_artists := <[r := row']> (df_artists w);
                          log := log w ++ request row :: quiet |})
    ∧ changes row row'
    ∧ forallb is_quiet quiet = true).

Lemma crawl_loop_spec (items : list nat) (w0 : World) :
  NoDup items →
  (∀ r, r ∈ items → is_Some (df_artists w0 !! r)) →
  ∃ w' evs,
    for_each items body w0 = (Ok tt, w')
    ∧ length (df_artists w') = length (df_artists w0)
    ∧ (∀ r row row',
         df_artists w0 !! r = Some row → df_artists w' !! r = Some row' →
         (r ∉ items → row' = row) ∧ changes row row')
    ∧ log w' = log w0 ++ evs
    ∧ filter (λ e, is_quiet e = false) evs
      = omap (λ r, request <$> df_artists w0 !! r) items.
Proof.
  intros Hnodup Hin.
  pose (P := λ (handled : list nat) (w : World),
    length (df_artists w) = length (df_artists w0)
    ∧ (∀ r row row',
         df_artists w0 !! r = Some row → df_artists w !! r = Some row' →
         (r ∉ handled → row' = row) ∧ changes row row')
    ∧ ∃ evs, log w = log w0 ++ evs
             ∧ filter (λ e, is_quiet e = false) evs
               = omap (λ r, request <$> df_artists w0 !! r) handled).
  destruct (for_each_invariant body P items) with (s := w0)
    as (w' & Hloop & Hlen & Hrows & evs & Hlog & Hevs).
  - intros handled x rest w Hitems (Hlen & Hrows & evs & Hlog & Hevs).
    assert (x ∉ handled) as Hfresh.
    { rewrite Hitems in Hnodup. apply NoDup_app in Hnodup as (_ & Hdisj & _).
      intros Hx. apply (Hdisj x Hx). left. }
    destruct (Hin x) as [row0 Hrow0].
    { rewrite Hitems. apply elem_of_app. right. left. }
    destruct (lookup_lt_is_Some_2 (df_artists w) x) as [row Hrow].
    { rewrite Hlen. by eapply lookup_lt_Some. }
    destruct (Hrows x row0 row Hrow0 Hrow) as [Hsame _].
    rewrite (Hsame Hfresh) in Hrow. clear Hsame row.
    destruct (Hturn w x row0 Hrow) as (row' & quiet & Hbody & Hchg & Hquiet).
    eexists. split; [exact Hbody|]. unfold P. simpl. split_and!.
    + by rewrite length_insert.
    + intros r row1 row1' Hr0 Hr.
      destruct (decide (r = x)) as [->|Hne].
      * rewrite list_lookup_insert_eq in Hr by (by eapply lookup_lt_Some).
        simplify_eq. split; [|done]. intros Hnot.
        exfalso. apply Hnot, elem_of_app. right. left.
      * rewrite list_lookup_insert_ne in Hr by done.
        destruct (Hrows r row1 row1' Hr0 Hr) as [Hsame Hchg1].
        split; [|done]. intros Hnot. apply Hsame.
        intros Hr1. apply Hnot, elem_of_app. by left.
    + exists (evs ++ request row0 :: quiet). split.
      { by rewrite Hlog, <- app_assoc. }
      rewrite filter_app, omap_app, Hevs. f_equal. simpl. rewrite Hrow0. simpl.
      rewrite filter_cons, decide_True by apply Hrequest.
      by rewrite (filter_quiet quiet Hquiet).
  - unfold P. split_and!; [done | | exists []; by rewrite app_nil_r].
    intros r row row' Hr0 Hr. simplify_eq. split; [done | apply Hrefl].
  - exists w', evs. split_and!; done.
Qed.

End crawl_loop.

(** ** The two stages and a whole run *)

Lemma requests_kept (req : ArtistRecord → event) (ext : event → option string)
    (key : ArtistRecord → string) (rows : list ArtistRecord) (items : list nat) :
  (∀ row, ext (req row) = Some (key row)) →
  omap ext (omap (λ r, req <$> rows !! r) items)
  = omap (λ r, key <$> rows !! r) items.
Proof.
  intros Hext. induction items as [|r items IH]; [done|].
  cbn. destruct (rows !! r) as [row|]; cbn; [|done].
  by rewrite Hext, IH.
Qed.

Lemma requests_dropped (req : ArtistRecord → event) (ext : event → option string)
    (rows : list ArtistRecord) (items : list nat) :
  (∀ row, ext (req row) = None) →
  omap ext (omap (λ r, req <$> rows !! r) items) = [].
Proof.
  intros Hext. induction items as [|r items IH]; [done|].
  cbn. destruct (rows !! r) as [row|]; cbn; [|done].
  by rewrite Hext.
Qed.

Lemma lookup_changes_keep (row row' : ArtistRecord) :
  lookup_changes row row' →
  artist row' = artist row
  ∧ genius_url row' = genius_url row
  ∧ wikidata_id row' = wikidata_id row
  ∧ discogs_id row' = discogs_id row
  ∧ (mb_id row ≠ None → mb_id row' ≠ None).
Proof. intros [-> | [d ->]]; simpl; split_and!; done. Qed.

Lemma details_changes_keep (row row' : ArtistRecord) :
  details_changes row row' →
  artist row' = artist row ∧ mb_id row' = mb_id row.
Proof. intros [-> | [d ->]]; simpl; split_and!; done. Qed.

Lemma lookup_stage_spec (net : Network) (w0 : World) :
  ∃ mid evs,
    lookup_stage net w0
    = (Ok tt, {| df_artists := mid; log := log w0 ++ evs |})
    ∧ length mid = length (df_artists w0)
    ∧ (∀ r row row',
         df_artists w0 !! r = Some row → mid !! r = Some row' →
         (mb_id row ≠ None → row' = row) ∧ lookup_changes row row')
    ∧ registry_queries evs
      = artist <$> filter (λ row, needs_lookup row = true) (df_artists w0)
    ∧ detail_fetches evs = [].
Proof.
  destruct (crawl_loop_spec (lookup_body net) lookup_changes
              (λ row, RegistryQuery (artist row)))
    with (items := query_index needs_lookup (df_artists w0)) (w0 := w0)
    as (w' & evs & Hloop & Hlen & Hrows & Hlog & Hevs).
  - by left.
  - done.
  - apply lookup_body_turn.
  - apply query_index_NoDup.
  - intros r (row & Hrow & _)%elem_of_query_index. eauto.
  - destruct w' as [mid events]. simpl in *. subst events.
    exists mid, evs. split_and!; try done.
    + intros r row row' Hr Hr'. destruct (Hrows r row row' Hr Hr') as [Hsame Hchg].
      split; [|done]. intros Hset. apply Hsame.
      intros (row0 & Hr0 & Hnull)%elem_of_query_index.
      rewrite Hr in Hr0. injection Hr0 as <-.
      unfold needs_lookup in Hnull. by destruct (mb_id row).
    + rewrite <- registry_queries_loud, Hevs.
      rewrite <- (query_index_rows needs_lookup artist).
      by apply requests_kept.
    + rewrite <- detail_fetches_loud, Hevs. by apply requests_dropped.
Qed.

Lemma details_stage_spec (net : Network) (w0 : World) :
  ∃ final evs,
    details_stage net w0
    = (Ok tt, {| df_artists := final; log := log w0 ++ evs |})
    ∧ length final = length (df_artists w0)
    ∧ (∀ r row row',
         df_artists w0 !! r = Some row → final !! r = Some row' →
         (needs_details row = false → row' = row) ∧ details_changes row row')
    ∧ registry_queries evs = []
    ∧ detail_fetches evs
      = (λ row, format_cell (mb_id row))
        <$> filter (λ row, needs_details row = true) (df_artists w0).
Proof.
  destruct (crawl_loop_spec (details_body net) details_changes
              (λ row, DetailFetch (format_cell (mb_id row))))
    with (items := query_index needs_details (df_artists w0)) (w0 := w0)
    as (w' & evs & Hloop & Hlen & Hrows & Hlog & Hevs).
  - by left.
  - done.
  - apply details_body_turn.
  - apply query_index_NoDup.
  - intros r (row & Hrow & _)%elem_of_query_index. eauto.
  - destruct w' as [final events]. simpl in *. subst events.
    exists final, evs. split_and!; try done.
    + intros r row row' Hr Hr'. destruct (Hrows r row row' Hr Hr') as [Hsame Hchg].
      split; [|done]. intros Hset. apply Hsame.
      intros (row0 & Hr0 & Hnull)%elem_of_query_index.
      rewrite Hr in Hr0. injection Hr0 as <-. congruence.
    + rewrite <- registry_queries_loud, Hevs. by apply requests_dropped.
    + rewrite <- detail_fetches_loud, Hevs.
      rewrite <- (query_index_rows needs_details (λ row, format_cell (mb_id row))).
      by apply requests_kept.
Qed.

(** A run never ends on an exception. [mid] is the frame between the two
    loops. *)
Lemma run_spec (net : Network) (snapshot : list ArtistRecord) :
  ∃ mid final evs1 evs2,
    run net snapshot = (Ok tt, {| df_artists := final; log := evs1 ++ evs2 |})
    ∧ length mid = length snapshot
    ∧ length final = length snapshot
    ∧ (∀ r row row',
         snapshot !! r = Some row → mid !! r = Some row' →
         (mb_id row ≠ None → row' = row) ∧ lookup_changes row row')
    ∧ (∀ r row row',
         mid !! r = Some row → final !! r = Some row' →
         (needs_details row = false → row' = row) ∧ details_changes row row')
    ∧ registry_queries (evs1 ++ evs2)
      = artist <$> filter (λ row, needs_lookup row = true) snapshot
    ∧ detail_fetches (evs1 ++ evs2)
      = (λ row, format_cell (mb_id row))
        <$> filter (λ row, needs_details row = true) mid.
Proof.
  destruct (lookup_stage_spec net {| df_artists := snapshot; log := [] |})
    as (mid & evs1 & Hstage1 & Hlen1 & Hrows1 & Hreg1 & Hdet1).
  destruct (details_stage_spec net {| df_artists := mid; log := evs1 |})
    as (final & evs2 & Hstage2 & Hlen2 & Hrows2 & Hreg2 & Hdet2).
  simpl in *. exists mid, final, evs1, evs2. split_and!; try done.
  - unfold run, main, bind. by rewrite Hstage1.
  - congruence.
  - by rewrite registry_queries_app, Hreg1, Hreg2, app_nil_r.
  - by rewrite detail_fetches_app, Hdet1, Hdet2.
Qed.

(** ** The completion invariant *)

(** C3, the part that fails. A scrape that completed without finding a
    Genius link leaves [genius_url] null, so the row is on the work-list of
    the next run again. *)
Lemma completed_attempt_is_rescraped : ¬ never_rescraped_after_completed_attempt.
Proof.
  intros Hclaim.
  apply (Hclaim bare_net bare_net [resolved_row "Queen" "0383dadf"]
           {| df_artists :=
                [apply_info_data
                   {| i_wikidata_id := ""; i_discogs_id := ""; i_genius_url := None |}
                   (resolved_row "Queen" "0383dadf")];
              log := [DetailFetch "0383dadf"] |}
           {| df_artists :=
                [apply_info_data
                   {| i_wikidata_id := ""; i_discogs_id := ""; i_genius_url := None |}
                   (resolved_row "Queen" "0383dadf")];
              log := [DetailFetch "0383dadf"] |}
           "0383dadf").
  - intros time i. by eexists.
  - reflexivity.
  - reflexivity.
  - simpl. apply list_elem_of_singleton. reflexivity.
  - simpl. apply list_elem_of_singleton. reflexivity.
Qed.

(** The first loop writes onto a row only what the registry answered for
    its artist. *)
Lemma lookup_stage_resolves (net : Network) (snapshot : list ArtistRecord) :
  ∀ r row m,
    snapshot !! r = Some row → frame_after_lookup net snapshot !! r = Some m →
    resolved_by net row m.
Proof.
  destruct (crawl_loop_spec (lookup_body net) (resolved_by net)
              (λ row, RegistryQuery (artist row)))
    with (items := query_index needs_lookup snapshot)
         (w0 := {| df_artists := snapshot; log := [] |})
    as (w' & evs & Hloop & _ & Hrows & _).
  - by left.
  - done.
  - intros w r row Hrow.
    destruct (registry_answer net w row) as [[d|]|e] eqn:Hanswer.
    + exists (apply_mb_data d row), [].
      rewrite (lookup_body_success net w r row Hrow d Hanswer).
      rewrite (alter_as_insert _ _ _ _ Hrow).
      split_and!; [done | | done]. right. by exists (length (log w)), d.
    + exists row, [Slept 30].
      rewrite (lookup_body_empty net w r row Hrow Hanswer).
      rewrite list_insert_id by done. split_and!; [done | by left | done].
    + exists row, [Printed (artist row); Slept 10].
      rewrite (lookup_body_failure net w r row Hrow e Hanswer).
      rewrite list_insert_id by done. split_and!; [done | by left | done].
  - apply query_index_NoDup.
  - intros r (row & Hrow & _)%elem_of_query_index. eauto.
  - intros r row m Hr Hm. unfold frame_after_lookup, lookup_stage, bind, get_state in Hm.
    cbn [df_artists fst snd] in Hm. rewrite Hloop in Hm.
    by apply (Hrows r row m).
Qed.

(** C3, as amended. A run ends normally; it queries the registry once for
    each row whose [mb_id] is null and for no other row; it fetches the
    details once for each row that has an [mb_id] and a null [genius_url]
    in the frame the first loop leaves, those the first loop has just
    resolved included, and for no other row, the first loop leaving every
    [genius_url] and every resolved row as they were and writing onto a row
    only what the registry answered for its artist; a non-null [mb_id] or
    [genius_url] keeps its value. A row that ends a run with an [mb_id] and
    a null [genius_url], as a row does whose page showed no Genius link, is
    fetched again by the next run. *)
Theorem completion_markers_are_kept
    (net : Network) (snapshot : list ArtistRecord) :
  ∃ final evs,
    run net snapshot = (Ok tt, {| df_artists := final; log := evs |})
    ∧ registry_queries evs
      = artist <$> filter (λ row, needs_lookup row = true) snapshot
    ∧ detail_fetches evs
      = (λ row, format_cell (mb_id row))
        <$> filter (λ row, needs_details row = true)
              (frame_after_lookup net snapshot)
    ∧ Forall2 (λ row m, genius_url m = genius_url row
                        ∧ (mb_id row ≠ None → m = row)
                        ∧ resolved_by net row m)
        snapshot (frame_after_lookup net snapshot)
    ∧ Forall2 (λ row f, (mb_id row ≠ None → mb_id f = mb_id row)
                        ∧ (genius_url row ≠ None → genius_url f = genius_url row)
                        ∧ (mb_id row ≠ None → genius_url row ≠ None → f = row))
        snapshot final
    ∧ ∀ net', ∃ final' evs',
        run net' final = (Ok tt, {| df_artists := final'; log := evs' |})
        ∧ ∀ row, row ∈ final → needs_details row = true →
                 format_cell (mb_id row) ∈ detail_fetches evs'.
Proof.
  pose proof (lookup_stage_resolves net snapshot) as Hresolved.
  unfold frame_after_lookup in *.
  destruct (lookup_stage_spec net {| df_artists := snapshot; log := [] |})
    as (mid & evs1 & Hstage1 & Hlen1 & Hrows1 & Hreg1 & Hdet1).
  destruct (details_stage_spec net {| df_artists := mid; log := evs1 |})
    as (final & evs2 & Hstage2 & Hlen2 & Hrows2 & Hreg2 & Hdet2).
  rewrite Hstage1 in *. simpl in *.
  exists final, (evs1 ++ evs2). split_and!.
  - unfold run, main, bind. by rewrite Hstage1.
  - by rewrite registry_queries_app, Hreg1, Hreg2, app_nil_r.
  - by rewrite detail_fetches_app, Hdet1, Hdet2.
  - apply Forall2_same_length_lookup_2; [done|].
    intros r row m Hr Hm. destruct (Hrows1 r row m Hr Hm) as [Hsame Hchg].
    split_and!; [|done|by apply (Hresolved r)].
    by apply lookup_changes_keep in Hchg as (_ & ? & _).
  - apply Forall2_same_length_lookup_2; [congruence|].
    intros r row f Hr Hf.
    destruct (lookup_lt_is_Some_2 mid r) as [m Hm].
    { rewrite Hlen1. by eapply lookup_lt_Some. }
    destruct (Hrows1 r row m Hr Hm) as [Hsame1 Hchg1].
    destruct (Hrows2 r m f Hm Hf) as [Hsame2 Hchg2].
    apply lookup_changes_keep in Hchg1 as (_ & Hurl & _).
    apply details_changes_keep in Hchg2 as (_ & Hid).
    assert (genius_url row ≠ None → f = m) as Hkept.
    { intros Hset. apply Hsame2. unfold needs_details. rewrite Hurl.
      by destruct (genius_url row). }
    split_and!.
    + intros Hset. rewrite Hid. by rewrite (Hsame1 Hset).
    + intros Hset. rewrite (Hkept Hset). done.
    + intros Hset1 Hset2. rewrite (Hkept Hset2). by apply Hsame1.
  - intros net'.
    destruct (run_spec net' final)
      as (mid' & final' & evs1' & evs2' & Hrun' & Hlen1' & _ & Hrows1' & _
          & _ & Hdet').
    exists final', (evs1' ++ evs2'). split; [done|].
    intros row [r Hr]%list_elem_of_lookup Hneeds.
    destruct (lookup_lt_is_Some_2 mid' r) as [m Hm].
    { rewrite Hlen1'. by eapply lookup_lt_Some. }
    destruct (Hrows1' r row m Hr Hm) as [Hsame _].
    assert (m = row) as ->.
    { apply Hsame. unfold needs_details in Hneeds.
      destruct (mb_id row); [done|]. by rewrite andb_false_r in Hneeds. }
    rewrite Hdet'. apply list_elem_of_fmap. exists row. split; [done|].
    apply list_elem_of_filter. split; [done|]. by eapply list_elem_of_lookup_2.
Qed.

(** A row the first loop resolves has its details fetched by the second
    loop of the same run. *)
Lemma completion_markers_are_kept_witness :
  ∃ final evs,
    run beatles_net [new_row "beatles"; resolved_row "Abba" "d87e52c5"]
    = (Ok tt, {| df_artists := final; log := evs |})
    ∧ registry_queries evs = ["beatles"]
    ∧ detail_fetches evs = ["b10bbbfc"; "d87e52c5"].
Proof.
  destruct (completion_markers_are_kept beatles_net
              [new_row "beatles"; resolved_row "Abba" "d87e52c5"])
    as (final & evs & Hrun & Hreg & Hdet & _).
  exists final, evs. split_and!; [exact Hrun | exact Hreg | exact Hdet].
Defined.

(** The end-to-end example of the specification: of two rows, one resolved
    and one not, only the second is looked up; the registry being down, it
    stays unresolved, and the resolved row, whose page shows no Genius link,
    gets its details fetched. *)
Example one_query_for_two_rows :
  run bare_net [resolved_row "Abba" "d87e52c5"; new_row "Queen"]
  = (Ok tt,
     {| df_artists :=
          [apply_info_data
             {| i_wikidata_id := ""; i_discogs_id := ""; i_genius_url := None |}
             (resolved_row "Abba" "d87e52c5");
           new_row "Queen"];
        log := [RegistryQuery "Queen"; Slept 30; DetailFetch "d87e52c5"] |}).
Proof. reflexivity. Qed.

(** ** Failures *)

Lemma seq_is_sample (rows : list Genius.SongRecord) :
  Genius.is_sample (length rows) rows (seq 0 (length rows)).
Proof.
  split_and!.
  - apply NoDup_seq.
  - apply length_seq.
  - intros i Hi%elem_of_seq. lia.
Qed.

(** C4, the part that fails. The song search of the Genius scraper has no
    handler around its body: with the API down, the first item ends the
    run. *)
Lemma search_failure_ends_the_run : ¬ item_failures_never_end_a_run.
Proof.
  intros [_ Hsearch].
  destruct (Hsearch (λ s, s) api_down (seq 0 400) many_songs) as [w' Hrun].
  - apply (seq_is_sample many_songs).
  - vm_compute in Hrun. discriminate Hrun.
Qed.

Example search_stops_at_the_first_failure :
  Genius.search_stage (λ s, s) api_down (seq 0 400)
    {| Genius.df_songs := many_songs; Genius.log := [] |}
  = (Raise ConnectionError,
     {| Genius.df_songs := many_songs;
        Genius.log := [Genius.SearchQuery "Track 0"] |}).
Proof. vm_compute. reflexivity. Qed.

(** C4, as amended. In the loops of the artist script a fetch that raises
    is contained in its turn: the frame is left as it was, so that a row
    without [mb_id] is on the work-list of the next scan, the artist of the
    row is printed, the loop sleeps 10 seconds, where an empty result costs
    30, and goes on with the next item; the same holds of the details loop,
    and no run of the script ends on an exception. *)
Theorem artist_fetch_failures_are_contained
    (net : Network) (w : World) (r : nat) (row : ArtistRecord) (e : exn)
    (rest : list nat) :
  df_artists w !! r = Some row →
  registry_answer net w row = Raise e →
  ∃ w',
    lookup_body net r w = (Ok tt, w')
    ∧ df_artists w' = df_artists w
    ∧ log w' = log w ++ [RegistryQuery (artist row); Printed (artist row); Slept 10]
    ∧ (mb_id row = None → r ∈ query_index needs_lookup (df_artists w'))
    ∧ for_each (r :: rest) (lookup_body net) w = for_each rest (lookup_body net) w'
    ∧ (∀ w0 r0 row0,
         df_artists w0 !! r0 = Some row0 →
         registry_answer net w0 row0 = Ok None →
         lookup_body net r0 w0
         = (Ok tt, {| df_artists := df_artists w0;
                      log := log w0 ++ [RegistryQuery (artist row0); Slept 30] |}))
    ∧ (∀ w0 r0 row0 e0,
         df_artists w0 !! r0 = Some row0 →
         detail_answer net w0 row0 = Raise e0 →
         details_body net r0 w0
         = (Ok tt, {| df_artists := df_artists w0;
                      log := log w0 ++ [DetailFetch (format_cell (mb_id row0));
                                        Printed (artist row0); Slept 10] |}))
    ∧ (∀ snapshot, ∃ final evs,
         run net snapshot = (Ok tt, {| df_artists := final; log := evs |})).
Proof.
  intros Hrow Hanswer.
  pose proof (lookup_body_failure net w r row Hrow e Hanswer) as Hbody.
  eexists. split; [exact Hbody|]. simpl. split_and!; try done.
  - intros Hnull. apply elem_of_query_index. exists row. split; [done|].
    unfold needs_lookup. by rewrite Hnull.
  - unfold bind. by rewrite Hbody.
  - intros w0 r0 row0 Hrow0 Hnone. by apply lookup_body_empty.
  - intros w0 r0 row0 e0 Hrow0 Hfail. by apply (details_body_failure net w0 r0 row0 Hrow0 e0).
  - intros snapshot.
    destruct (run_spec net snapshot) as (_ & final & evs1 & evs2 & Hrun & _).
    eauto.
Qed.

Lemma artist_fetch_failures_are_contained_witness :
  df_artists (fresh [new_row "Queen"]) !! 0%nat = Some (new_row "Queen")
  ∧ registry_answer unreachable_net (fresh [new_row "Queen"]) (new_row "Queen")
    = Raise ConnectionError
  ∧ ∃ w',
      lookup_body unreachable_net 0 (fresh [new_row "Queen"]) = (Ok tt, w')
      ∧ df_artists w' = [new_row "Queen"]
      ∧ log w' = [RegistryQuery "Queen"; Printed "Queen"; Slept 10].
Proof.
  split; [reflexivity|]. split; [reflexivity|].
  destruct (artist_fetch_failures_are_contained unreachable_net
              (fresh [new_row "Queen"]) 0 (new_row "Queen") ConnectionError [])
    as (w' & Hbody & Hdf & Hlog & _); [reflexivity | reflexivity |].
  exists w'. split_and!; assumption.
Defined.

(** ** Successes and empty results *)

(** The turns of the lookup loop whose fetch returns: when it returns a
    dictionary, every field of the dictionary is written onto the row, no
    other row is touched, and the loop goes on to the next item without
    sleeping; when it returns [None], nothing is written, the loop sleeps
    30 seconds and goes on to the next item of the same run. *)
Theorem lookup_success_and_empty_turns
    (net : Network) (w : World) (r : nat) (row : ArtistRecord)
    (rest : list nat) :
  df_artists w !! r = Some row →
  match registry_answer net w row with
  | Ok (Some d) =>
      ∃ w' row',
        lookup_body net r w = (Ok tt, w')
        ∧ log w' = log w ++ [RegistryQuery (artist row)]
        ∧ df_artists w' = <[r := row']> (df_artists w)
        ∧ type row' = q_type d ∧ gender row' = q_gender d
        ∧ country row' = q_country d
        ∧ time_begin row' = q_time_begin d ∧ time_end row' = q_time_end d
        ∧ begin_area_id row' = q_begin_area_id d
        ∧ end_area_id row' = q_end_area_id d
        ∧ mb_id row' = Some (q_mb_id d)
        ∧ artist row' = artist row ∧ wikidata_id row' = wikidata_id row
        ∧ discogs_id row' = discogs_id row ∧ genius_url row' = genius_url row
        ∧ for_each (r :: rest) (lookup_body net) w
          = for_each rest (lookup_body net) w'
  | Ok None =>
      ∃ w',
        lookup_body net r w = (Ok tt, w')
        ∧ log w' = log w ++ [RegistryQuery (artist row); Slept 30]
        ∧ df_artists w' = df_artists w
        ∧ for_each (r :: rest) (lookup_body net) w
          = for_each rest (lookup_body net) w'
  | Raise _ => True
  end.
Proof.
  intros Hrow. destruct (registry_answer net w row) as [[d|]|e] eqn:Hanswer.
  - pose proof (lookup_body_success net w r row Hrow d Hanswer) as Hbody.
    eexists. exists (apply_mb_data d row).
    split; [exact Hbody|]. simpl. split_and!; try done.
    + by apply alter_as_insert.
    + unfold bind. by rewrite Hbody.
  - pose proof (lookup_body_empty net w r row Hrow Hanswer) as Hbody.
    eexists. split; [exact Hbody|]. simpl. split_and!; try done.
    unfold bind. by rewrite Hbody.
  - done.
Qed.

Lemma lookup_success_and_empty_turns_witness :
  df_artists (fresh [new_row "beatles"]) !! 0%nat = Some (new_row "beatles")
  ∧ ∃ w' row',
      lookup_body beatles_net 0 (fresh [new_row "beatles"]) = (Ok tt, w')
      ∧ log w' = [RegistryQuery "beatles"]
      ∧ df_artists w' = [row']
      ∧ mb_id row' = Some "b10bbbfc".
Proof.
  split; [reflexivity|].
  pose proof (lookup_success_and_empty_turns beatles_net
                (fresh [new_row "beatles"]) 0 (new_row "beatles") []
                eq_refl) as H.
  change (registry_answer beatles_net (fresh [new_row "beatles"])
            (new_row "beatles"))
    with (Ok (Some (query_dict the_beatles))) in H.
  destruct H as (w' & row' & Hbody & Hlog & Hdf & _ & _ & _ & _ & _ & _ & _
                 & Hid & _).
  exists w', row'. split_and!; assumption.
Defined.

(** C8. The fetch does not return for a search the registry completed
    without a match: on an answer with status 200 and an empty candidate
    list it raises at [matches[0]], so that the turn, instead of writing
    nothing and sleeping the 30 seconds of an empty result, prints the
    artist and sleeps the 10 seconds of a failure before it goes on to the
    next item. The row is left as it was. *)
Theorem no_match_is_handled_as_a_failure
    (net : Network) (w : World) (r : nat) (row : ArtistRecord)
    (rest : list nat) :
  df_artists w !! r = Some row →
  registry net (length (log w)) (artist row)
  = Response 200 (JsonObject (Some [])) →
  registry_answer net w row = Raise IndexError
  ∧ ∃ w',
      lookup_body net r w = (Ok tt, w')
      ∧ df_artists w' = df_artists w
      ∧ log w' = log w ++ [RegistryQuery (artist row);
                           Printed (artist row); Slept 10]
      ∧ log w' ≠ log w ++ [RegistryQuery (artist row); Slept 30]
      ∧ for_each (r :: rest) (lookup_body net) w
        = for_each rest (lookup_body net) w'.
Proof.
  intros Hrow Hresponse.
  assert (registry_answer net w row = Raise IndexError) as Hanswer.
  { unfold registry_answer. by rewrite Hresponse. }
  split; [done|].
  pose proof (lookup_body_failure net w r row Hrow IndexError Hanswer) as Hbody.
  eexists. split; [exact Hbody|]. simpl. split_and!; try done.
  - intros Heq%app_inv_head. discriminate Heq.
  - unfold bind. by rewrite Hbody.
Qed.

Lemma no_match_is_handled_as_a_failure_witness :
  df_artists {| df_artists := [new_row "Zzyzx"]; log := [] |} !! 0%nat
  = Some (new_row "Zzyzx")
  ∧ registry no_match_net 0 "Zzyzx" = Response 200 (JsonObject (Some []))
  ∧ ∃ w',
      lookup_body no_match_net 0 {| df_artists := [new_row "Zzyzx"]; log := [] |}
      = (Ok tt, w')
      ∧ df_artists w' = [new_row "Zzyzx"]
      ∧ log w' = [RegistryQuery "Zzyzx"; Printed "Zzyzx"; Slept 10].
Proof.
  split; [reflexivity|]. split; [reflexivity|].
  destruct (no_match_is_handled_as_a_failure no_match_net
              {| df_artists := [new_row "Zzyzx"]; log := [] |} 0
              (new_row "Zzyzx") [] eq_refl eq_refl)
    as (_ & w' & Hbody & Hdf & Hlog & _).
  exists w'. split_and!; assumption.
Defined.

(** ** Answers that are not 200, and empty candidate lists *)

(** C9, as stated, fails: with the registry answering 503 the turn prints
    nothing and sleeps 30 seconds, the handling of an empty result. *)
Lemma non_200_is_not_a_transport_error : ¬ non_200_is_handled_as_transport_error.
Proof.
  intros Hclaim.
  specialize (Hclaim bare_net (fresh [new_row "Queen"]) 0%nat (new_row "Queen")
                503%Z NotJson eq_refl eq_refl).
  assert (503 ≠ 200)%Z as Hstatus by lia.
  specialize (Hclaim Hstatus). vm_compute in Hclaim. discriminate Hclaim.
Qed.

(** C9, as amended. For an answer whose status is not 200 the fetch returns
    [None] without reading the body, and the loop takes the branch of the
    empty result: nothing is written, nothing is printed, the loop sleeps 30
    seconds, and the row, still without [mb_id], is on the work-list of the
    next scan. *)
Theorem non_200_is_handled_as_empty
    (net : Network) (w : World) (r : nat) (row : ArtistRecord)
    (status_code : Z) (body : json_body) :
  df_artists w !! r = Some row →
  registry net (length (log w)) (artist row) = Response status_code body →
  status_code ≠ 200%Z →
  parse_musicbrainz (artist row) (Response status_code body) = Ok None
  ∧ ∃ w',
      lookup_body net r w = (Ok tt, w')
      ∧ df_artists w' = df_artists w
      ∧ log w' = log w ++ [RegistryQuery (artist row); Slept 30]
      ∧ (mb_id row = None → r ∈ query_index needs_lookup (df_artists w')).
Proof.
  intros Hrow Hresponse Hstatus.
  assert (parse_musicbrainz (artist row) (Response status_code body) = Ok None)
    as Hparse.
  { simpl. apply Z.eqb_neq in Hstatus. by rewrite Hstatus. }
  split; [done|].
  assert (registry_answer net w row = Ok None) as Hanswer.
  { unfold registry_answer. by rewrite Hresponse. }
  pose proof (lookup_body_empty net w r row Hrow Hanswer) as Hbody.
  eexists. split; [exact Hbody|]. simpl. split_and!; try done.
  intros Hnull. apply elem_of_query_index. exists row. split; [done|].
  unfold needs_lookup. by rewrite Hnull.
Qed.

Lemma non_200_is_handled_as_empty_witness :
  df_artists (fresh [new_row "Queen"]) !! 0%nat = Some (new_row "Queen")
  ∧ registry bare_net (length (log (fresh [new_row "Queen"]))) "Queen"
    = Response 503 NotJson
  ∧ 503%Z ≠ 200%Z
  ∧ parse_musicbrainz "Queen" (Response 503 NotJson) = Ok None
  ∧ ∃ w',
      lookup_body bare_net 0 (fresh [new_row "Queen"]) = (Ok tt, w')
      ∧ df_artists w' = [new_row "Queen"]
      ∧ log w' = [RegistryQuery "Queen"; Slept 30]
      ∧ (mb_id (new_row "Queen") = None →
         0%nat ∈ query_index needs_lookup (df_artists w')).
Proof.
  split; [reflexivity|]. split; [reflexivity|]. split; [lia|].
  apply (non_200_is_handled_as_empty bare_net (fresh [new_row "Queen"]) 0
           (new_row "Queen") 503 NotJson); [reflexivity | reflexivity | lia].
Defined.

(** C7. On an answer with status 200 and an empty candidate list the
    selection raises at [matches[0]]; the loop takes it for a failure. The
    fetch returns [None] when the status is not 200, whatever the
    candidates would have been. *)
Theorem empty_candidate_list_raises :
  (∀ name, select_match name [] = Raise IndexError)
  ∧ (∀ name,
       parse_musicbrainz name (Response 200 (JsonObject (Some [])))
       = Raise IndexError)
  ∧ run no_match_net [new_row "Zzyzx"]
    = (Ok tt, {| df_artists := [new_row "Zzyzx"];
                 log := [RegistryQuery "Zzyzx"; Printed "Zzyzx"; Slept 10] |})
  ∧ parse_musicbrainz "The Beatles"
      (Response 503 (JsonObject (Some [the_beatles])))
    = Ok None.
Proof. split_and!; reflexivity. Qed.

(** ** The artist expander *)

Section expander_facts.
Context {R : Type}.
Implicit Types (df : list (Expander.Row R)) (row : Expander.Row R).
Implicit Types (mapping : gmap string (list string)).

Lemma expand_with_dict_cons row df mapping :
  Expander.expand_with_dict (row :: df) mapping
  = Expander.explode (Expander.others row)
      (Expander.artist_list mapping (Expander.artist row))
    ++ Expander.expand_with_dict df mapping.
Proof. reflexivity. Qed.

(** A row whose artist is not a key of the mapping, or is null, passes
    through. *)
Lemma explode_unmapped row mapping :
  Expander.artist row ≫= (mapping !!.) = None →
  Expander.explode (Expander.others row)
    (Expander.artist_list mapping (Expander.artist row)) = [row].
Proof.
  intros Hnone. unfold Expander.artist_list. rewrite Hnone. by destruct row.
Qed.

(** A row whose artist maps to a non-empty list becomes one row per name. *)
Lemma explode_mapped row mapping names :
  Expander.artist row ≫= (mapping !!.) = Some names →
  names ≠ [] →
  Expander.explode (Expander.others row)
    (Expander.artist_list mapping (Expander.artist row))
  = (λ name, {| Expander.artist := Some name;
                Expander.others := Expander.others row |}) <$> names.
Proof.
  intros Hsome Hnames. unfold Expander.artist_list. rewrite Hsome.
  destruct names as [|name names]; [done|]. simpl.
  f_equal. by rewrite <- list_fmap_compose.
Qed.

Lemma expand_follows_nonempty_mapping df mapping :
  (∀ key names, mapping !! key = Some names → names ≠ []) →
  Expander.expand_with_dict df mapping = df ≫= Expander.rows_of mapping.
Proof.
  intros Hnonempty. induction df as [|row df IH]; [done|].
  rewrite expand_with_dict_cons, IH. simpl. f_equal.
  unfold Expander.rows_of.
  destruct (Expander.artist row ≫= (mapping !!.)) as [names|] eqn:Hlookup.
  - apply explode_mapped; [done|].
    destruct (Expander.artist row) as [name|]; [|done].
    by apply (Hnonempty name).
  - by apply explode_unmapped.
Qed.

Lemma length_rows_of row mapping :
  length (Expander.rows_of mapping row) = Expander.count_of mapping row.
Proof.
  unfold Expander.rows_of, Expander.count_of.
  destruct (Expander.artist row ≫= (mapping !!.)); [|done].
  by rewrite length_fmap.
Qed.

Lemma expand_unmapped df mapping :
  (∀ row name, row ∈ df → Expander.artist row = Some name →
               mapping !! name = None) →
  Expander.expand_with_dict df mapping = df.
Proof.
  intros Hunmapped. induction df as [|row df IH]; [done|].
  rewrite expand_with_dict_cons, IH.
  - rewrite explode_unmapped; [done|].
    destruct (Expander.artist row) as [name|] eqn:Hartist; [|done].
    simpl. apply (Hunmapped row); [left | done].
  - intros row' name Hin. apply Hunmapped. by right.
Qed.

Lemma rows_of_unmapped df mapping :
  (∀ row name, row ∈ df → Expander.artist row = Some name →
               mapping !! name = None) →
  df ≫= Expander.rows_of mapping = df.
Proof.
  intros Hunmapped. induction df as [|row df IH]; [done|].
  rewrite bind_cons, IH by (intros row' name Hin; apply Hunmapped; by right).
  unfold Expander.rows_of.
  destruct (Expander.artist row) as [name|] eqn:Hartist; [|done].
  simpl. rewrite (Hunmapped row name); [done | left | done].
Qed.

End expander_facts.

(** C5, as stated, fails on a mapping with an empty list: [explode] keeps
    the row, with a null artist, where the specification has no row. *)
Lemma empty_split_keeps_a_row : ¬ expansion_follows_every_mapping.
Proof.
  intros Hclaim.
  destruct (Hclaim [credit "A & B" 1] split_to_nothing) as [_ Hcount].
  vm_compute in Hcount. discriminate Hcount.
Qed.

Example empty_split_gives_a_null_artist :
  Expander.expand_with_dict [credit "A & B" 1] split_to_nothing
  = [ {| Expander.artist := None; Expander.others := 1%nat |} ].
Proof. vm_compute. reflexivity. Qed.

(** The example of the specification. *)
Example expand_a_and_b :
  Expander.expand_with_dict [credit "A & B" 1; credit "C" 2] split_a_b
  = [credit "A" 1; credit "B" 1; credit "C" 2].
Proof. vm_compute. reflexivity. Qed.

(** C5, as amended. For a mapping without empty lists, as [main] passes
    them (it keeps the entries of more than one name), the output is the
    concatenation, in row order, of what each row stands for: one copy of the
    row per mapped name, in the order of the mapping, with the name as
    artist and every other field kept, when the artist is a key; the row
    itself when it is not. The number of rows is the sum, over the rows, of
    the number of mapped names, or of 1. *)
Theorem expand_with_dict_follows_the_mapping
    {R : Type} (df : list (Expander.Row R)) (mapping : gmap string (list string)) :
  (∀ key names, mapping !! key = Some names → names ≠ []) →
  Expander.expand_with_dict df mapping = df ≫= Expander.rows_of mapping
  ∧ length (Expander.expand_with_dict df mapping)
    = sum_list (Expander.count_of mapping <$> df)
  ∧ (∀ (row : Expander.Row R) name names,
       Expander.artist row = Some name → mapping !! name = Some names →
       Expander.rows_of mapping row
       = (λ n, {| Expander.artist := Some n;
                  Expander.others := Expander.others row |}) <$> names)
  ∧ (∀ (row : Expander.Row R) name,
       Expander.artist row = Some name → mapping !! name = None →
       Expander.rows_of mapping row = [row]).
Proof.
  intros Hnonempty. split_and!.
  - by apply expand_follows_nonempty_mapping.
  - rewrite expand_follows_nonempty_mapping by done.
    induction df as [|row df IH]; [done|].
    rewrite bind_cons, fmap_cons, length_app, length_rows_of, IH. done.
  - intros row name names Hartist Hlookup.
    unfold Expander.rows_of. rewrite Hartist. simpl. by rewrite Hlookup.
  - intros row name Hartist Hlookup.
    unfold Expander.rows_of. rewrite Hartist. simpl. by rewrite Hlookup.
Qed.

Lemma split_a_b_nonempty :
  ∀ key names, split_a_b !! key = Some names → names ≠ [].
Proof.
  intros key names Hlookup. unfold split_a_b in Hlookup.
  apply lookup_singleton_Some in Hlookup as [_ <-]. discriminate.
Defined.

Lemma expand_with_dict_follows_the_mapping_witness :
  (∀ key names, split_a_b !! key = Some names → names ≠ [])
  ∧ Expander.expand_with_dict [credit "A & B" 1; credit "C" 2] split_a_b
    = [credit "A & B" 1; credit "C" 2] ≫= Expander.rows_of split_a_b
  ∧ length (Expander.expand_with_dict [credit "A & B" 1; credit "C" 2] split_a_b)
    = sum_list (Expander.count_of split_a_b <$> [credit "A & B" 1; credit "C" 2]).
Proof.
  split; [exact split_a_b_nonempty|].
  destruct (expand_with_dict_follows_the_mapping
              [credit "A & B" 1; credit "C" 2] split_a_b split_a_b_nonempty)
    as (Hrows & Hcount & _).
  split; assumption.
Defined.

(** C6. When no artist of the expanded rows is a key of the mapping,
    expanding them again changes nothing: every row falls to the single-row
    branch. *)
Theorem expand_with_dict_idempotent
    {R : Type} (df : list (Expander.Row R)) (mapping : gmap string (list string)) :
  (∀ row name,
     row ∈ Expander.expand_with_dict df mapping →
     Expander.artist row = Some name → mapping !! name = None) →
  Expander.expand_with_dict (Expander.expand_with_dict df mapping) mapping
  = Expander.expand_with_dict df mapping
  ∧ (Expander.expand_with_dict df mapping ≫= Expander.rows_of mapping)
    = Expander.expand_with_dict df mapping.
Proof.
  intros Hunmapped. split.
  - by apply expand_unmapped.
  - by apply rows_of_unmapped.
Qed.

Lemma expanded_rows_are_unmapped :
  ∀ row name,
    row ∈ Expander.expand_with_dict [credit "A & B" 1; credit "C" 2] split_a_b →
    Expander.artist row = Some name → split_a_b !! name = None.
Proof.
  intros row name Hin Hartist.
  change (row ∈ [credit "A" 1; credit "B" 1; credit "C" 2]) in Hin.
  unfold split_a_b. apply lookup_singleton_ne.
  repeat (apply elem_of_cons in Hin as [-> | Hin]; [by inversion Hartist|]).
  by apply elem_of_nil in Hin.
Defined.

Lemma expand_with_dict_idempotent_witness :
  (∀ row name,
     row ∈ Expander.expand_with_dict [credit "A & B" 1; credit "C" 2] split_a_b →
     Expander.artist row = Some name → split_a_b !! name = None)
  ∧ Expander.expand_with_dict
      (Expander.expand_with_dict [credit "A & B" 1; credit "C" 2] split_a_b)
      split_a_b
    = Expander.expand_with_dict [credit "A & B" 1; credit "C" 2] split_a_b.
Proof.
  split; [exact expanded_rows_are_unmapped|].
  apply (expand_with_dict_idempotent [credit "A & B" 1; credit "C" 2] split_a_b).
  exact expanded_rows_are_unmapped.
Defined.

(** ** The song search of the Genius scraper *)

Section genius_facts.
Context (_normalize : string → string).
Context (api : nat → string → Genius.search_response).

(** A turn of the search loop, however it ends, writes on no other row than
    its own. *)
Lemma search_body_other_rows (i j : nat) (w : Genius.World) :
  j ≠ i →
  Genius.df_songs (Genius.search_body _normalize api i w).2 !! j
  = Genius.df_songs w !! j.
Proof.
  intros Hne.
  unfold Genius.search_body, bind, Genius.loc, Genius.search, Genius.hit_at,
    Genius.update_row, modify, ret, raise.
  repeat (case_match; simplify_eq/=; try done);
    by rewrite list_lookup_alter_ne.
Qed.

Lemma search_loop_other_rows (items : list nat) (j : nat) :
  j ∉ items →
  ∀ w, Genius.df_songs
         (for_each items (Genius.search_body _normalize api) w).2 !! j
       = Genius.df_songs w !! j.
Proof.
  induction items as [|i items IH]; intros Hnotin w; [done|].
  apply not_elem_of_cons in Hnotin as [Hne Hnotin].
  simpl. unfold bind.
  pose proof (search_body_other_rows i j w Hne) as Hturn.
  destruct (Genius.search_body _normalize api i w) as [[[]|e] w1]; simpl in *.
  - by rewrite IH.
  - done.
Qed.

End genius_facts.

(** Distinct labels of a frame are no more than its rows. *)
Lemma sample_fits (n : nat) (df : list Genius.SongRecord) (drawn : list nat) :
  Genius.is_sample n df drawn → (n ≤ length df)%nat.
Proof.
  intros (Hnodup & <- & Hbound).
  replace (length df) with (length (seq 0 (length df))) by apply length_seq.
  apply submseteq_length, NoDup_submseteq; [done|].
  intros i Hi. apply elem_of_seq. specialize (Hbound i Hi). lia.
Qed.

Lemma remove_dups_NoDup {A} `{EqDecision A} (l : list A) :
  NoDup l → remove_dups l = l.
Proof.
  induction 1 as [|x l Hx _ IH]; [done|]. simpl.
  destruct (decide_rel elem_of x l); [done|]. by rewrite IH.
Qed.

Lemma filter_Forall {A} (P : A → Prop) `{∀ x, Decision (P x)} (l : list A) :
  Forall P l → filter P l = l.
Proof.
  induction 1 as [|x l Hx _ IH]; [done|].
  by rewrite filter_cons_True, IH.
Qed.

(** Whatever the oracle, the permutation is an arrangement of the labels. *)
Lemma permutation_Permutation (len : nat) (drawn : list nat) :
  Genius.permutation len drawn ≡ₚ seq 0 len.
Proof.
  unfold Genius.permutation.
  set (named := remove_dups (filter (λ i, (i < len)%nat) drawn)).
  assert (∀ i, i ∈ named → (i < len)%nat) as Hnamed.
  { intros i. unfold named. rewrite elem_of_remove_dups, list_elem_of_filter.
    by intros [? _]. }
  apply NoDup_Permutation.
  - apply NoDup_app. split_and!.
    + apply NoDup_remove_dups.
    + intros i Hi. rewrite list_elem_of_difference. by intros [_ ?].
    + apply NoDup_list_difference, NoDup_seq.
  - apply NoDup_seq.
  - intros i. rewrite elem_of_app, list_elem_of_difference, elem_of_seq. split.
    + intros [Hi | [Hi _]]; [apply Hnamed in Hi|]; lia.
    + intros Hi. destruct (decide (i ∈ named)); [by left | by right].
Qed.

(** A list of [n] distinct labels of the frame is the sample of the oracle
    that names it. *)
Lemma permutation_of_sample (n : nat) (df : list Genius.SongRecord)
    (drawn : list nat) :
  Genius.is_sample n df drawn →
  take n (Genius.permutation (length df) drawn) = drawn.
Proof.
  intros (Hnodup & <- & Hbound). unfold Genius.permutation.
  rewrite filter_Forall by (by apply Forall_forall).
  rewrite remove_dups_NoDup by done. by rewrite take_app_length.
Qed.

Lemma sample_of_sample (n : nat) (df : list Genius.SongRecord) (drawn : list nat) :
  Genius.is_sample n df drawn → Genius.sample n df drawn = Ok drawn.
Proof.
  intros Hsample. unfold Genius.sample.
  pose proof (sample_fits n df drawn Hsample) as Hfits.
  destruct (length df <? n)%nat eqn:Hsmall.
  - apply Nat.ltb_lt in Hsmall. lia.
  - by rewrite permutation_of_sample.
Qed.

(** What [sample] returns is a sample, whatever the oracle. *)
Lemma sample_is_sample (n : nat) (df : list Genius.SongRecord) (drawn : list nat) :
  (n ≤ length df)%nat →
  Genius.is_sample n df (take n (Genius.permutation (length df) drawn)).
Proof.
  intros Hfits. pose proof (permutation_Permutation (length df) drawn) as Hperm.
  split_and!.
  - apply (sublist_NoDup _ (Genius.permutation (length df) drawn)).
    + rewrite Hperm. apply NoDup_seq.
    + apply sublist_take.
  - rewrite length_take, Hperm, length_seq. lia.
  - intros i Hi. assert (i ∈ seq 0 (length df)) as Hin%elem_of_seq; [|lia].
    rewrite <- Hperm. by eapply subseteq_take.
Qed.

Lemma elem_of_pending_of (df : list Genius.SongRecord) (labels : list nat) (i : nat) :
  i ∈ Genius.pending_of df labels ↔
  i ∈ labels ∧ ∃ row, df !! i = Some row ∧ Genius.genius_url row = None.
Proof.
  unfold Genius.pending_of. rewrite list_elem_of_filter. split.
  - intros [Hpending Hin]. split; [done|].
    destruct (df !! i) as [row|]; [|done]. exists row. split; [done|].
    unfold Genius.needs_search in Hpending. simpl in Hpending.
    by destruct (Genius.genius_url row).
  - intros [Hin (row & Hrow & Hnull)]. split; [|done].
    rewrite Hrow. simpl. unfold Genius.needs_search. by rewrite Hnull.
Qed.

(** More labels than a list can hold: one of them is not in the list. *)
Lemma one_is_left_out (pending work : list nat) :
  NoDup pending → (length work < length pending)%nat →
  ∃ i, i ∈ pending ∧ i ∉ work.
Proof.
  intros Hnodup Hlen.
  destruct (decide (Forall (λ i, i ∈ work) pending)) as [Hall|Hsome].
  - assert (length pending ≤ length work)%nat; [|lia].
    apply submseteq_length, NoDup_submseteq; [done|].
    by apply Forall_forall.
  - apply not_Forall_Exists in Hsome; [|apply _].
    apply Exists_exists in Hsome as (i & Hin & Hout). eauto.
Qed.

(** C10, as it is worded, fails: a frame of fewer than 400 rows has no
    sample of 400 rows, and the run over it ends at once. *)
Lemma small_frames_are_not_sampled : ¬ every_run_searches_a_sample_of_400.
Proof.
  intros Hclaim.
  destruct (Hclaim (λ s, s) api_down []
              [new_song "Queen" "Bohemian Rhapsody"]) as (sampled & Hsample & _).
  apply sample_fits in Hsample. simpl in Hsample. lia.
Qed.

(** C10, as amended. Over a snapshot of at least 400 rows, whatever the
    generator draws, [sample(400)] gives 400 distinct rows of the snapshot,
    and the search loop runs over those of them that have no [genius_url],
    in the order of the draw: at most 400 rows, none of them twice. When
    more than 400 rows of the snapshot have no [genius_url], one of them is
    not on the work-list, and the run, however it ends, leaves it as it
    was. Any 400 distinct rows, in any order, can be the sample. Over a
    snapshot of fewer than 400 rows the sampling raises and nothing is
    searched. *)
Theorem genius_search_covers_one_sample
    (_normalize : string → string)
    (api : nat → string → Genius.search_response)
    (drawn : list nat) (snapshot : list Genius.SongRecord) :
  ((400 ≤ length snapshot)%nat →
   ∃ sampled,
     Genius.sample 400 snapshot drawn = Ok sampled
     ∧ NoDup sampled
     ∧ length sampled = 400%nat
     ∧ (∀ i, i ∈ sampled → (i < length snapshot)%nat)
     ∧ Genius.search_stage _normalize api drawn
         {| Genius.df_songs := snapshot; Genius.log := [] |}
       = for_each (Genius.pending_of snapshot sampled)
           (Genius.search_body _normalize api)
           {| Genius.df_songs := snapshot; Genius.log := [] |}
     ∧ (length (Genius.pending_of snapshot sampled) ≤ 400)%nat
     ∧ NoDup (Genius.pending_of snapshot sampled)
     ∧ (Genius.pending_of snapshot sampled `sublist_of` sampled)
     ∧ (∀ i, i ∈ Genius.pending_of snapshot sampled ↔
             i ∈ sampled ∧ ∃ row, snapshot !! i = Some row
                                  ∧ Genius.genius_url row = None)
     ∧ ((400 < length (query_index Genius.needs_search snapshot))%nat →
        ∃ i row,
          snapshot !! i = Some row
          ∧ Genius.genius_url row = None
          ∧ (i ∉ Genius.pending_of snapshot sampled)
          ∧ Genius.df_songs
              (Genius.search_stage _normalize api drawn
                 {| Genius.df_songs := snapshot; Genius.log := [] |}).2 !! i
            = Some row))
  ∧ (∀ order,
       NoDup order → length order = 400%nat →
       (∀ i, i ∈ order → (i < length snapshot)%nat) →
       Genius.sample 400 snapshot order = Ok order)
  ∧ ((length snapshot < 400)%nat →
     Genius.search_stage _normalize api drawn
       {| Genius.df_songs := snapshot; Genius.log := [] |}
     = (Raise ValueError,
        {| Genius.df_songs := snapshot; Genius.log := [] |})).
Proof.
  split_and!.
  - intros Hfits.
    set (sampled := take 400 (Genius.permutation (length snapshot) drawn)).
    destruct (sample_is_sample 400 snapshot drawn Hfits)
      as (Hnodup & Hlen & Hbound).
    fold sampled in Hnodup, Hlen, Hbound.
    assert (Genius.sample 400 snapshot drawn = Ok sampled) as Hdraw.
    { unfold Genius.sample.
      destruct (length snapshot <? 400)%nat eqn:Hsmall; [|done].
      apply Nat.ltb_lt in Hsmall. lia. }
    assert (Genius.search_stage _normalize api drawn
              {| Genius.df_songs := snapshot; Genius.log := [] |}
            = for_each (Genius.pending_of snapshot sampled)
                (Genius.search_body _normalize api)
                {| Genius.df_songs := snapshot; Genius.log := [] |}) as Hstage.
    { unfold Genius.search_stage, bind, get_state, lift_result.
      cbn [Genius.df_songs]. by rewrite Hdraw. }
    assert (length (Genius.pending_of snapshot sampled) ≤ 400)%nat as Hwork.
    { rewrite <- Hlen. apply length_filter. }
    exists sampled. split_and!; try done.
    + by apply NoDup_filter.
    + apply sublist_filter.
    + apply elem_of_pending_of.
    + intros Hmany.
      destruct (one_is_left_out (query_index Genius.needs_search snapshot)
                  (Genius.pending_of snapshot sampled))
        as (i & (row & Hrow & Hpending)%elem_of_query_index & Hout).
      { apply query_index_NoDup. }
      { lia. }
      exists i, row. split_and!; try done.
      * unfold Genius.needs_search in Hpending.
        by destruct (Genius.genius_url row).
      * rewrite Hstage, search_loop_other_rows by done. done.
  - intros order Hnodup Hlen Hbound. by apply sample_of_sample.
  - intros Hsmall%Nat.ltb_lt.
    unfold Genius.search_stage, bind, get_state, lift_result, Genius.sample.
    cbn [Genius.df_songs]. by rewrite Hsmall.
Qed.

Lemma genius_search_covers_one_sample_witness :
  (400 ≤ length many_songs)%nat
  ∧ ∃ sampled,
      Genius.sample 400 many_songs (reverse (seq 0 400)) = Ok sampled
      ∧ NoDup sampled
      ∧ length sampled = 400%nat
      ∧ (length (Genius.pending_of many_songs sampled) ≤ 400)%nat.
Proof.
  assert (400 ≤ length many_songs)%nat as Hfits.
  { unfold many_songs. rewrite length_fmap, length_seq. lia. }
  split; [exact Hfits|].
  destruct (genius_search_covers_one_sample (λ s, s) api_down
              (reverse (seq 0 400)) many_songs) as [Hbig _].
  destruct (Hbig Hfits) as (sampled & Hdraw & Hnodup & Hlen & _ & _ & Hwork & _).
  exists sampled. split_and!; assumption.
Defined.

(** A draw need not follow the order of the rows: the loop takes the rows
    in the order they were drawn. *)
Example search_follows_the_draw :
  Genius.is_sample 400 many_songs (reverse (seq 0 400))
  ∧ Genius.sample 400 many_songs (reverse (seq 0 400))
    = Ok (reverse (seq 0 400))
  ∧ Genius.pending_of many_songs (reverse (seq 0 400)) = reverse (seq 0 400).
Proof.
  assert (Genius.is_sample 400 many_songs (reverse (seq 0 400))) as Hsample.
  { split_and!.
    - rewrite reverse_Permutation. apply NoDup_seq.
    - by rewrite length_reverse, length_seq.
    - intros i Hi%elem_of_reverse%elem_of_seq.
      change (length many_songs) with 400%nat. lia. }
  split_and!; [done | by apply sample_of_sample | vm_compute; reflexivity].
Qed.

(** A frame of fewer than 400 rows cannot be sampled: the run ends at once. *)
Example small_frames_cannot_be_sampled :
  Genius.search_stage (λ s, s) api_down [0%nat]
    {| Genius.df_songs := [new_song "Queen" "Bohemian Rhapsody"];
       Genius.log := [] |}
  = (Raise ValueError,
     {| Genius.df_songs := [new_song "Queen" "Bohemian Rhapsody"];
        Genius.log := [] |}).
Proof. reflexivity. Qed.

(** * Further properties of the code *)

(** ** The exact-match search of the Genius scraper ([find_song_index]) *)

Section find_song_index_facts.
Context (_normalize : string → string).

Lemma find_pass_Some (names : Genius.hit → string) (song_name artist_name : string)
    (hits : list Genius.hit) :
  ∀ i k,
    Genius.find_pass _normalize names (_normalize song_name)
      (_normalize artist_name) i hits = Some k →
    ∃ h, (i ≤ k)%nat ∧ hits !! (k - i)%nat = Some h
         ∧ exact_match _normalize names song_name artist_name h
         ∧ ∀ j h', (j < k - i)%nat → hits !! j = Some h' →
                   ¬ exact_match _normalize names song_name artist_name h'.
Proof.
  induction hits as [|h hits IH]; intros i k Hfind; simpl in Hfind; [done|].
  assert (Genius.find_pass _normalize names (_normalize song_name)
            (_normalize artist_name) (S i) hits = Some k →
          ¬ exact_match _normalize names song_name artist_name h →
          ∃ h0, (i ≤ k)%nat ∧ (h :: hits) !! (k - i)%nat = Some h0
                ∧ exact_match _normalize names song_name artist_name h0
                ∧ ∀ j h', (j < k - i)%nat → (h :: hits) !! j = Some h' →
                          ¬ exact_match _normalize names song_name artist_name h')
    as Hlater.
  { intros Hrest Hno. destruct (IH (S i) k Hrest) as (h0 & Hle & Hk & Hm & Hfirst).
    exists h0. replace (k - i)%nat with (S (k - S i)) by lia.
    split_and!; [lia | done | done |].
    intros [|j] h' Hj Hh'; simplify_eq/=; [done|].
    apply (Hfirst j); [lia | done]. }
  case_bool_decide as Htype; simpl in Hfind.
  { apply Hlater; [done|]. by intros (? & _). }
  destruct (bool_decide (_normalize (names h) = _normalize artist_name)) eqn:Hartist;
    [destruct (bool_decide (_normalize (Genius.title h) = _normalize song_name))
       eqn:Htitle|]; simpl in Hfind.
  - simplify_eq. apply bool_decide_eq_true in Hartist, Htitle.
    exists h. rewrite Nat.sub_diag.
    split_and!; [lia | done | by unfold exact_match | intros; lia].
  - apply bool_decide_eq_false in Htitle.
    apply Hlater; [done|]. by intros (_ & _ & ?).
  - apply bool_decide_eq_false in Hartist.
    apply Hlater; [done|]. by intros (_ & ? & _).
Qed.

Lemma find_pass_None (names : Genius.hit → string) (song_name artist_name : string)
    (hits : list Genius.hit) :
  ∀ i,
    Genius.find_pass _normalize names (_normalize song_name)
      (_normalize artist_name) i hits = None ↔
    ∀ h, h ∈ hits → ¬ exact_match _normalize names song_name artist_name h.
Proof.
  induction hits as [|h hits IH]; intros i; simpl.
  - split; [by intros _ h ?%elem_of_nil | done].
  - assert (¬ exact_match _normalize names song_name artist_name h →
            (Genius.find_pass _normalize names (_normalize song_name)
               (_normalize artist_name) (S i) hits = None ↔
             ∀ h0, h0 ∈ h :: hits →
                   ¬ exact_match _normalize names song_name artist_name h0))
      as Hlater.
    { intros Hno. rewrite IH. split.
      - intros Hall h0 [->|Hin]%elem_of_cons; auto.
      - intros Hall h0 Hin. apply Hall. by right. }
    case_bool_decide as Htype; simpl.
    { apply Hlater. by intros (? & _). }
    destruct (bool_decide (_normalize (names h) = _normalize artist_name)) eqn:Hartist;
      [destruct (bool_decide (_normalize (Genius.title h) = _normalize song_name))
         eqn:Htitle|]; simpl.
    + apply bool_decide_eq_true in Hartist, Htitle. split; [done|].
      intros Hall. exfalso. apply (Hall h); [left | by unfold exact_match].
    + apply bool_decide_eq_false in Htitle. apply Hlater. by intros (_ & _ & ?).
    + apply bool_decide_eq_false in Hartist. apply Hlater. by intros (_ & ? & _).
Qed.

(** The first hit a pass accepts is the one it returns. *)
Lemma find_pass_first (names : Genius.hit → string) (song_name artist_name : string)
    (hits : list Genius.hit) (k : nat) (h : Genius.hit) :
  hits !! k = Some h →
  exact_match _normalize names song_name artist_name h →
  (∀ j h', (j < k)%nat → hits !! j = Some h' →
           ¬ exact_match _normalize names song_name artist_name h') →
  Genius.find_pass _normalize names (_normalize song_name)
    (_normalize artist_name) 0 hits = Some k.
Proof.
  intros Hk Hmatch Hfirst.
  destruct (Genius.find_pass _normalize names (_normalize song_name)
              (_normalize artist_name) 0 hits) as [k'|] eqn:Hfind.
  - apply find_pass_Some in Hfind as (h0 & _ & Hk' & Hmatch' & Hfirst').
    rewrite Nat.sub_0_r in Hk', Hfirst'. f_equal.
    destruct (Nat.lt_trichotomy k k') as [Hlt | [-> | Hgt]]; [|done|].
    + by destruct (Hfirst' k h Hlt Hk).
    + by destruct (Hfirst k' h0 Hgt Hk').
  - exfalso. eapply find_pass_None; [exact Hfind | | exact Hmatch].
    by eapply list_elem_of_lookup_2.
Qed.

(** X1. What [find_song_index] returns is -1 or the index of a hit of the
    list: a hit of type ["song"] whose normalised title is the normalised
    song name and whose normalised artist names, or primary artist names,
    are the normalised artist name. In particular [hits[idx_hit]] is always
    defined when the result is not -1. *)
Theorem find_song_index_sound
    (hits : list Genius.hit) (song_name artist_name : string) :
  Genius.find_song_index _normalize hits song_name artist_name = (-1)%Z
  ∨ ∃ k h,
      Genius.find_song_index _normalize hits song_name artist_name = Z.of_nat k
      ∧ hits !! k = Some h
      ∧ Genius.h_type h = "song"
      ∧ _normalize (Genius.title h) = _normalize song_name
      ∧ (_normalize (Genius.artist_names h) = _normalize artist_name
         ∨ _normalize (Genius.primary_artist_names h) = _normalize artist_name).
Proof.
  unfold Genius.find_song_index.
  destruct (Genius.find_pass _normalize Genius.artist_names _ _ 0 hits)
    as [k|] eqn:Hfirst.
  - apply find_pass_Some in Hfirst as (h & _ & Hk & (Ht & Ha & Hs) & _).
    rewrite Nat.sub_0_r in Hk. right. exists k, h. split_and!; auto.
  - destruct (Genius.find_pass _normalize Genius.primary_artist_names _ _ 0 hits)
      as [k|] eqn:Hsecond; [|by left].
    apply find_pass_Some in Hsecond as (h & _ & Hk & (Ht & Ha & Hs) & _).
    rewrite Nat.sub_0_r in Hk. right. exists k, h. split_and!; auto.
Qed.

(** X2. [find_song_index] returns -1 exactly when no hit of the list is an
    exact match, neither by its artist names nor by its primary artist
    names. *)
Theorem find_song_index_none
    (hits : list Genius.hit) (song_name artist_name : string) :
  Genius.find_song_index _normalize hits song_name artist_name = (-1)%Z ↔
  ∀ h, h ∈ hits →
       ¬ exact_match _normalize Genius.artist_names song_name artist_name h
       ∧ ¬ exact_match _normalize Genius.primary_artist_names
             song_name artist_name h.
Proof.
  unfold Genius.find_song_index.
  destruct (Genius.find_pass _normalize Genius.artist_names _ _ 0 hits)
    as [k|] eqn:Hfirst.
  - split; [lia|]. intros Hall. exfalso.
    apply find_pass_Some in Hfirst as (h & _ & Hk & Hmatch & _).
    rewrite Nat.sub_0_r in Hk.
    by destruct (Hall h (list_elem_of_lookup_2 _ _ _ Hk)) as [Hno _].
  - destruct (Genius.find_pass _normalize Genius.primary_artist_names _ _ 0 hits)
      as [k|] eqn:Hsecond.
    + split; [lia|]. intros Hall. exfalso.
      apply find_pass_Some in Hsecond as (h & _ & Hk & Hmatch & _).
      rewrite Nat.sub_0_r in Hk.
      by destruct (Hall h (list_elem_of_lookup_2 _ _ _ Hk)) as [_ Hno].
    + split; [|done]. intros _ h Hin. split.
      * by eapply find_pass_None.
      * by eapply find_pass_None.
Qed.

(** X3. The pass over the artist names has precedence: when some hit
    matches by its artist names, the result is the first such hit, even if a
    hit before it matches by its primary artist names; only when no hit
    matches by its artist names is the result the first hit that matches by
    its primary artist names. *)
Theorem find_song_index_precedence
    (hits : list Genius.hit) (song_name artist_name : string)
    (k : nat) (h : Genius.hit) :
  hits !! k = Some h →
  (exact_match _normalize Genius.artist_names song_name artist_name h
   ∧ ∀ j h', (j < k)%nat → hits !! j = Some h' →
             ¬ exact_match _normalize Genius.artist_names song_name artist_name h')
  ∨ ((∀ h', h' ∈ hits →
            ¬ exact_match _normalize Genius.artist_names song_name artist_name h')
     ∧ exact_match _normalize Genius.primary_artist_names song_name artist_name h
     ∧ ∀ j h', (j < k)%nat → hits !! j = Some h' →
               ¬ exact_match _normalize Genius.primary_artist_names
                   song_name artist_name h') →
  Genius.find_song_index _normalize hits song_name artist_name = Z.of_nat k.
Proof.
  intros Hk [[Hmatch Hfirst] | (Hnone & Hmatch & Hfirst)];
    unfold Genius.find_song_index.
  - by rewrite (find_pass_first _ _ _ _ k h).
  - apply find_pass_None with (i := 0%nat) in Hnone. rewrite Hnone.
    by rewrite (find_pass_first _ _ _ _ k h).
Qed.

End find_song_index_facts.

(** ** The search loop of the Genius scraper *)

(** Whatever a loop does, a property of the state that every turn keeps,
    however the turn ends, holds when the loop ends, however it ends. *)
Lemma for_each_preserves {S A} (body : A → M S unit) (I : S → Prop)
    (items : list A) :
  (∀ x s, x ∈ items → I s → I (body x s).2) →
  ∀ s, I s → I (for_each items body s).2.
Proof.
  induction items as [|x items IH]; intros Hturn s Hs; [done|].
  simpl. unfold bind.
  pose proof (Hturn x s (list_elem_of_here _ _) Hs) as Hx.
  destruct (body x s) as [[[]|e] s1]; simpl in *; [|done].
  apply IH; [|done]. intros y s' Hy. apply Hturn. by right.
Qed.

(** A loop whose turns each add at most [c] to a cost adds at most [c] per
    item. *)
Lemma for_each_cost {S A} (body : A → M S unit) (cost : S → nat) (c : nat)
    (items : list A) :
  (∀ x s, (cost (body x s).2 ≤ cost s + c)%nat) →
  ∀ s, (cost (for_each items body s).2 ≤ cost s + c * length items)%nat.
Proof.
  intros Hturn. induction items as [|x items IH]; intros s; simpl; [lia|].
  unfold bind. specialize (Hturn x s).
  destruct (body x s) as [[[]|e] s1]; simpl in *; [|lia].
  specialize (IH s1). lia.
Qed.

Section search_facts.
Context (_normalize : string → string).
Context (api : nat → string → Genius.search_response).

Lemma hit_at_found (hits : list Genius.hit) (row : Genius.SongRecord) :
  Genius.find_song_index _normalize hits (Genius.song row) (Genius.artist row)
  ≠ (-1)%Z →
  ∃ h, hits !! Z.to_nat
                 (Genius.find_song_index _normalize hits
                    (Genius.song row) (Genius.artist row)) = Some h
       ∧ accepted _normalize row h.
Proof.
  unfold Genius.find_song_index.
  destruct (Genius.find_pass _normalize Genius.artist_names _ _ 0 hits)
    as [k|] eqn:Hfirst.
  - intros _. apply find_pass_Some in Hfirst as (h & _ & Hk & Hmatch & _).
    rewrite Nat.sub_0_r in Hk. exists h. rewrite Nat2Z.id.
    split; [done | by left].
  - destruct (Genius.find_pass _normalize Genius.primary_artist_names _ _ 0 hits)
      as [k|] eqn:Hsecond; [|done].
    intros _. apply find_pass_Some in Hsecond as (h & _ & Hk & Hmatch & _).
    rewrite Nat.sub_0_r in Hk. exists h. rewrite Nat2Z.id.
    split; [done | by right].
Qed.

(** What a turn of the search loop does for a row of the frame. *)
Lemma search_body_spec (w : Genius.World) (i : nat) (row : Genius.SongRecord) :
  Genius.df_songs w !! i = Some row →
  ∃ outcome row' queries,
    Genius.search_body _normalize api i w
    = (outcome, {| Genius.df_songs := <[i := row']> (Genius.df_songs w);
                   Genius.log := Genius.log w ++ (Genius.SearchQuery <$> queries) |})
    ∧ (queries = [first_query row]
       ∨ (queries = [first_query row; second_query row]
          ∧ ∃ hits, api (length (Genius.log w)) (first_query row)
                    = Genius.SearchHits hits
                    ∧ Genius.find_song_index _normalize hits
                        (Genius.song row) (Genius.artist row) = (-1)%Z))
    ∧ (outcome = Ok tt
       ∨ ∃ e t q, outcome = Raise e ∧ api t q = Genius.SearchFailed e
                  ∧ q ∈ queries ∧ row' = row)
    ∧ (row' = row
       ∨ ∃ h, accepted _normalize row h ∧ row' = Genius.populate h row).
Proof.
  intros Hrow.
  unfold Genius.search_body, bind, Genius.loc. rewrite Hrow. simpl.
  rewrite Hrow. simpl. unfold Genius.search at 1. simpl.
  destruct (api (length (Genius.log w)) (Genius.song row)) as [e|hits] eqn:Hfirst.
  { exists (Raise e), row, [first_query row].
    rewrite list_insert_id by done. split_and!; [done | by left | | by left].
    right. exists e, (length (Genius.log w)), (first_query row).
    split_and!; [done | done | left | done]. }
  case_bool_decide as Hidx.
  { destruct (hit_at_found hits row Hidx) as (h & Hh & Hacc).
    unfold Genius.hit_at. rewrite Hh. simpl.
    exists (Ok tt), (Genius.populate h row), [first_query row].
    unfold Genius.update_row, modify. simpl.
    rewrite (alter_as_insert _ _ _ _ Hrow).
    split_and!; [done | by left | by left | right; eauto]. }
  unfold Genius.search. simpl. rewrite length_app. simpl.
  destruct (api (length (Genius.log w) + 1)%nat
              (Genius.song row +:+ " by " +:+ Genius.artist row))
    as [e|hits2] eqn:Hsecond.
  { exists (Raise e), row, [first_query row; second_query row].
    rewrite list_insert_id by done. rewrite <- app_assoc.
    split_and!; [done | right; eauto | | by left].
    right. exists e, (length (Genius.log w) + 1)%nat, (second_query row).
    split_and!; [done | done | right; left | done]. }
  case_bool_decide as Hidx2.
  { destruct (hit_at_found hits2 row Hidx2) as (h & Hh & Hacc).
    unfold Genius.hit_at. rewrite Hh. simpl.
    exists (Ok tt), (Genius.populate h row), [first_query row; second_query row].
    unfold Genius.update_row, modify. simpl.
    rewrite (alter_as_insert _ _ _ _ Hrow). rewrite <- app_assoc.
    split_and!; [done | right; eauto | by left | right; eauto]. }
  exists (Ok tt), row, [first_query row; second_query row].
  rewrite list_insert_id by done. rewrite <- app_assoc.
  split_and!; [done | right; eauto | by left | by left].
Qed.

(** X4. A turn of the search loop for a row of the frame makes one request
    for the song name and, only when that gives no exact match, a second one
    for [song by artist]. It raises only what a request raised, and then
    writes nothing. What it writes otherwise is the three Genius fields of
    a hit that [find_song_index] accepted: [hits[idx_hit]] never fails. *)
Theorem search_turn (w : Genius.World) (i : nat) (row : Genius.SongRecord) :
  Genius.df_songs w !! i = Some row →
  ∃ outcome row' queries,
    Genius.search_body _normalize api i w
    = (outcome, {| Genius.df_songs := <[i := row']> (Genius.df_songs w);
                   Genius.log := Genius.log w ++ (Genius.SearchQuery <$> queries) |})
    ∧ (queries = [first_query row]
       ∨ (queries = [first_query row; second_query row]
          ∧ ∃ hits, api (length (Genius.log w)) (first_query row)
                    = Genius.SearchHits hits
                    ∧ Genius.find_song_index _normalize hits
                        (Genius.song row) (Genius.artist row) = (-1)%Z))
    ∧ (outcome = Ok tt
       ∨ ∃ e t q, outcome = Raise e ∧ api t q = Genius.SearchFailed e
                  ∧ q ∈ queries ∧ row' = row)
    ∧ (row' = row
       ∨ ∃ h, accepted _normalize row h ∧ row' = Genius.populate h row).
Proof. apply search_body_spec. Qed.

Lemma search_changes_step (row0 rowx row' : Genius.SongRecord) :
  Genius.genius_url row0 = None →
  search_changes _normalize row0 rowx →
  (row' = rowx ∨ ∃ h, accepted _normalize rowx h ∧ row' = Genius.populate h rowx) →
  search_changes _normalize row0 row'.
Proof.
  intros Hnull [-> | (_ & h0 & Hacc0 & ->)] [-> | (h & Hacc & ->)].
  - by left.
  - right. eauto.
  - right. eauto.
  - right. split; [done|]. exists h. split; [exact Hacc | done].
Qed.

(** The invariant of the search loop: the frame keeps its length, and each
    row is as it was or populated from an accepted hit. *)
Lemma search_stage_invariant
    (drawn : list nat) (snapshot : list Genius.SongRecord) :
  length (Genius.df_songs
            (Genius.search_stage _normalize api drawn
               {| Genius.df_songs := snapshot; Genius.log := [] |}).2)
  = length snapshot
  ∧ ∀ i row row',
      snapshot !! i = Some row →
      Genius.df_songs
        (Genius.search_stage _normalize api drawn
           {| Genius.df_songs := snapshot; Genius.log := [] |}).2 !! i
      = Some row' →
      search_changes _normalize row row'.
Proof.
  pose (I := λ w : Genius.World,
    length (Genius.df_songs w) = length snapshot
    ∧ ∀ i row row', snapshot !! i = Some row →
                    Genius.df_songs w !! i = Some row' →
                    search_changes _normalize row row').
  assert (I (Genius.search_stage _normalize api drawn
               {| Genius.df_songs := snapshot; Genius.log := [] |}).2) as HI;
    [|exact HI].
  { unfold Genius.search_stage, bind, get_state, lift_result, Genius.sample.
    simpl. destruct (length snapshot <? 400)%nat; simpl.
    { split; [done|]. intros i row row' Hi Hi'. simplify_eq/=. by left. }
    apply for_each_preserves.
    - intros x w [_ (row0 & Hx & Hnull)]%elem_of_pending_of [Hlen Hrows].
      destruct (lookup_lt_is_Some_2 (Genius.df_songs w) x) as [rowx Hrowx].
      { rewrite Hlen. by eapply lookup_lt_Some. }
      destruct (search_body_spec w x rowx Hrowx)
        as (outcome & row' & queries & -> & _ & _ & Hwritten).
      unfold I. simpl. split; [by rewrite length_insert|].
      intros i row row1 Hi Hi1.
      destruct (decide (i = x)) as [->|Hne].
      + rewrite list_lookup_insert_eq in Hi1 by (by eapply lookup_lt_Some).
        simplify_eq. eapply search_changes_step; [done | | exact Hwritten].
        by apply (Hrows x).
      + rewrite list_lookup_insert_ne in Hi1 by done. by apply (Hrows i).
    - split; [done|]. intros i row row' Hi Hi'. simplify_eq/=. by left. }
Qed.

(** X5. However the search stage ends, and whatever rows were drawn, it
    neither adds nor drops a row, and it leaves every row as it was or with
    the three Genius fields of a hit that [find_song_index] accepted for
    it: the artist, the song and the lyrics of a row are never changed, and
    a row that already had a [genius_url] is not touched at all. *)
Theorem search_stage_writes_only_matches
    (drawn : list nat) (snapshot : list Genius.SongRecord) :
  length (Genius.df_songs
            (Genius.search_stage _normalize api drawn
               {| Genius.df_songs := snapshot; Genius.log := [] |}).2)
  = length snapshot
  ∧ ∀ i row row',
      snapshot !! i = Some row →
      Genius.df_songs
        (Genius.search_stage _normalize api drawn
           {| Genius.df_songs := snapshot; Genius.log := [] |}).2 !! i
      = Some row' →
      search_changes _normalize row row'
      ∧ Genius.artist row' = Genius.artist row
      ∧ Genius.song row' = Genius.song row
      ∧ Genius.lyrics row' = Genius.lyrics row
      ∧ (Genius.genius_url row ≠ None → row' = row).
Proof.
  destruct (search_stage_invariant drawn snapshot) as [Hlen Hrows].
  split; [done|]. intros i row row' Hi Hi'.
  pose proof (Hrows i row row' Hi Hi') as Hchg. split; [done|].
  destruct Hchg as [-> | (Hnull & h & _ & ->)]; simpl; split_and!; done.
Qed.

Lemma search_body_requests (i : nat) (w : Genius.World) :
  (length (Genius.log (Genius.search_body _normalize api i w).2)
   ≤ length (Genius.log w) + 2)%nat.
Proof.
  destruct (Genius.df_songs w !! i) as [row|] eqn:Hrow.
  - destruct (search_body_spec w i row Hrow)
      as (outcome & row' & queries & -> & [-> | [-> _]] & _).
    + simpl. rewrite length_app. simpl. lia.
    + simpl. rewrite length_app. simpl. lia.
  - unfold Genius.search_body, bind, Genius.loc. rewrite Hrow. simpl. lia.
Qed.

(** X6. The search stage sends at most two requests for each drawn row
    without [genius_url], hence at most 800 requests in a run, however the
    run ends. *)
Theorem search_stage_requests
    (drawn : list nat) (snapshot : list Genius.SongRecord) :
  Genius.is_sample 400 snapshot drawn →
  (length (Genius.log
             (Genius.search_stage _normalize api drawn
                {| Genius.df_songs := snapshot; Genius.log := [] |}).2)
   ≤ 2 * length (Genius.pending_of snapshot drawn))%nat
  ∧ (length (Genius.log
               (Genius.search_stage _normalize api drawn
                  {| Genius.df_songs := snapshot; Genius.log := [] |}).2)
     ≤ 800)%nat.
Proof.
  intros Hsample. pose proof (sample_of_sample 400 snapshot drawn Hsample) as Hdraw.
  destruct Hsample as (_ & Hlen & _).
  assert (length (Genius.log
                    (Genius.search_stage _normalize api drawn
                       {| Genius.df_songs := snapshot; Genius.log := [] |}).2)
          ≤ 2 * length (Genius.pending_of snapshot drawn))%nat as Hbound.
  { unfold Genius.search_stage, bind, get_state, lift_result.
    cbn [Genius.df_songs]. rewrite Hdraw. cbn [fst snd].
    pose proof (for_each_cost (Genius.search_body _normalize api)
                  (λ w, length (Genius.log w)) 2
                  (Genius.pending_of snapshot drawn) search_body_requests
                  {| Genius.df_songs := snapshot; Genius.log := [] |}) as H.
    simpl in H. lia. }
  split; [done|].
  assert (length (Genius.pending_of snapshot drawn) ≤ length drawn)%nat
    by apply length_filter.
  lia.
Qed.

End search_facts.

(** ** The lyrics of a song ([get_lyrics_data]) *)

Lemma starts_with_app (old rest : string) :
  Genius.starts_with old (old +:+ rest) = true.
Proof.
  induction old as [|c old IH]; [done|]. simpl.
  by rewrite bool_decide_eq_true_2, IH.
Qed.

Lemma starts_with_inv (old s : string) :
  Genius.starts_with old s = true → ∃ rest, s = old +:+ rest.
Proof.
  revert s. induction old as [|c old IH]; intros s Hs; [by exists s|].
  destruct s as [|b s]; [done|]. simpl in Hs.
  apply andb_true_iff in Hs as [->%bool_decide_eq_true Hs].
  destruct (IH s Hs) as [rest ->]. by exists rest.
Qed.

Lemma remove_go_skip (old a b : string) :
  Genius.remove_go old (String.length a) (a +:+ b) = Genius.remove_go old 0 b.
Proof. induction a as [|c a IH]; [done|]. exact IH. Qed.

Lemma remove_all_head (old rest : string) :
  old ≠ "" →
  Genius.remove_all old (old +:+ rest) = Genius.remove_all old rest.
Proof.
  destruct old as [|c old]; [done|]. intros _.
  unfold Genius.remove_all.
  change (String c old +:+ rest) with (String c (old +:+ rest)).
  cbn [Genius.remove_go].
  change (String c (old +:+ rest)) with (String c old +:+ rest).
  rewrite starts_with_app. simpl. rewrite Nat.sub_0_r. apply remove_go_skip.
Qed.

Lemma remove_all_absent (old s : string) :
  ¬ occurs old s → Genius.remove_all old s = s.
Proof.
  destruct old as [|c old]; [done|]. unfold Genius.remove_all.
  induction s as [|b s IH]; intros Habsent; [done|].
  cbn [Genius.remove_go].
  destruct (Genius.starts_with (String c old) (String b s)) eqn:Hstart.
  - exfalso. apply Habsent. apply starts_with_inv in Hstart as [rest Hrest].
    exists "", rest. by rewrite Hrest.
  - f_equal. apply IH. intros (a & rest & ->). apply Habsent.
    by exists (String b a), rest.
Qed.

Lemma remove_go_length (old : string) (s : string) :
  ∀ skip, (String.length (Genius.remove_go old skip s) ≤ String.length s)%nat.
Proof.
  induction s as [|c s IH]; intros skip; simpl; [lia|].
  destruct skip as [|k].
  - destruct (Genius.starts_with old (String c s)); simpl.
    + specialize (IH (String.length old - 1)%nat). lia.
    + specialize (IH 0%nat). lia.
  - specialize (IH k). lia.
Qed.

(** X7. For an answer with status 200, [get_lyrics_data] returns the text
    of the lyrics container with the header text removed: when the text is
    the header followed by a rest in which the header does not occur, the
    rest comes back; when the page has no header text, or the header does
    not occur in the text, the whole text comes back. What comes back is
    never longer than the text. *)
Theorem lyrics_header_is_removed
    (header_lines lines : list string) (rest : string) :
  join line_feed lines = join line_feed header_lines +:+ rest →
  ¬ occurs (join line_feed header_lines) rest →
  Genius.parse_lyrics (Genius.LyricsResponse 200 (Genius.Lyrics header_lines lines))
  = Ok (Some rest)
  ∧ (∀ lines',
       ¬ occurs (join line_feed header_lines) (join line_feed lines') →
       Genius.parse_lyrics
         (Genius.LyricsResponse 200 (Genius.Lyrics header_lines lines'))
       = Ok (Some (join line_feed lines')))
  ∧ (∀ lines',
       ∃ text,
         Genius.parse_lyrics
           (Genius.LyricsResponse 200 (Genius.Lyrics header_lines lines'))
         = Ok (Some text)
         ∧ (String.length text ≤ String.length (join line_feed lines'))%nat).
Proof.
  intros Htext Habsent. split_and!.
  - simpl. fold line_feed. rewrite Htext.
    destruct (decide (join line_feed header_lines = "")) as [Hempty|Hheader].
    + rewrite Hempty. done.
    + rewrite remove_all_head by done. by rewrite remove_all_absent.
  - intros lines' Habsent'. simpl. fold line_feed.
    by rewrite remove_all_absent.
  - intros lines'. eexists. split; [reflexivity|]. fold line_feed.
    unfold Genius.remove_all.
    destruct (join line_feed header_lines); [done|]. apply remove_go_length.
Qed.

(** ** The lyrics loop and a whole run of the Genius scraper *)

Lemma length_index_from {A} (p : A → bool) (rows : list A) :
  ∀ i, length (index_from p i rows)
       = length (filter (λ row, p row = true) rows).
Proof.
  induction rows as [|row rows IH]; intros i; [done|].
  cbn [index_from]. rewrite filter_cons. destruct (p row) eqn:Hrow.
  - rewrite decide_True by done. simpl. by rewrite IH.
  - rewrite decide_False by done. apply IH.
Qed.

Lemma length_query_index {A} (p : A → bool) (rows : list A) :
  length (query_index p rows) = length (filter (λ row, p row = true) rows).
Proof. apply length_index_from. Qed.

Lemma index_from_omap {A B} (p : A → bool) (g : A → option B)
    (rows pre : list A) :
  omap (λ r, (pre ++ rows) !! r ≫= g) (index_from p (length pre) rows)
  = omap g (filter (λ row, p row = true) rows).
Proof.
  revert pre. induction rows as [|row rest IH]; intros pre; [done|].
  specialize (IH (pre ++ [row])).
  rewrite length_app, Nat.add_1_r, <- app_assoc in IH.
  change ([row] ++ rest) with (row :: rest) in IH.
  cbn [index_from]. rewrite filter_cons. destruct (p row) eqn:Hrow.
  - rewrite decide_True by done. cbn [omap list_omap].
    rewrite list_lookup_middle by done. cbn [mbind option_bind].
    destruct (g row); by rewrite IH.
  - rewrite decide_False by done. apply IH.
Qed.

Lemma query_index_omap {A B} (p : A → bool) (g : A → option B) (rows : list A) :
  omap (λ r, rows !! r ≫= g) (query_index p rows)
  = omap g (filter (λ row, p row = true) rows).
Proof. apply (index_from_omap p g rows []). Qed.

(** When a loop ends normally, an invariant that follows the items handled
    by the turns that ended normally holds of all the items. *)
Lemma for_each_ok_invariant {S A} (body : A → M S unit)
    (P : list A → S → Prop) (items : list A) :
  (∀ handled x rest s s',
     items = handled ++ x :: rest → P handled s →
     body x s = (Ok tt, s') → P (handled ++ [x]) s') →
  ∀ s s', P [] s → for_each items body s = (Ok tt, s') → P items s'.
Proof.
  intros Hstep.
  assert (∀ rest handled s s',
            items = handled ++ rest → P handled s →
            for_each rest body s = (Ok tt, s') → P items s') as Hgen.
  { induction rest as [|x rest IH]; intros handled s s' Hitems HP Hloop.
    - rewrite app_nil_r in Hitems. cbv [for_each ret] in Hloop.
      by simplify_eq.
    - simpl in Hloop. unfold bind in Hloop.
      destruct (body x s) as [[[]|e] s1] eqn:Hbody; [|done].
      apply (IH (handled ++ [x]) s1 s'); [by rewrite <- app_assoc | | done].
      by eapply Hstep. }
  intros s s' HP Hloop. by apply (Hgen items [] s s').
Qed.

Section lyrics_facts.
Context (site : nat → string → Genius.lyrics_response).

(** A turn of the lyrics loop for a row with a URL: one page is fetched,
    and the row is left as it is or gets a text that is not empty. *)
Lemma lyrics_turn (w : Genius.LyricsWorld) (i : nat) (row : Genius.SongRecord)
    (url_song : string) :
  Genius.songs w !! i = Some row →
  Genius.genius_url row = Some url_song →
  ∃ outcome row',
    Genius.lyrics_body site i w
    = (outcome, {| Genius.songs := <[i := row']> (Genius.songs w);
                   Genius.fetched := Genius.fetched w ++ [url_song] |})
    ∧ (row' = row ∨ ∃ text, text ≠ "" ∧ row' = Genius.set_lyrics text row)
    ∧ (row' ≠ row → outcome = Ok tt).
Proof.
  intros Hrow Hurl. unfold Genius.lyrics_body. rewrite Hrow, Hurl.
  unfold bind, Genius.get_lyrics_data.
  destruct (Genius.parse_lyrics _) as [[[|c text]|]|e]; simpl.
  - exists (Ok tt), row. rewrite list_insert_id by done.
    split_and!; [done | by left | done].
  - exists (Ok tt), (Genius.set_lyrics (String c text) row).
    unfold modify. cbn [Genius.songs Genius.fetched].
    rewrite (alter_as_insert _ _ _ _ Hrow).
    split_and!; [done | right; by exists (String c text) | done].
  - exists (Ok tt), row. rewrite list_insert_id by done.
    split_and!; [done | by left | done].
  - exists (Raise e), row. rewrite list_insert_id by done.
    split_and!; [done | by left | done].
Qed.

Lemma lyrics_changes_step (row0 rowx row' : Genius.SongRecord) :
  Genius.needs_lyrics row0 = true →
  lyrics_changes row0 rowx →
  (row' = rowx ∨ ∃ text, text ≠ "" ∧ row' = Genius.set_lyrics text rowx) →
  lyrics_changes row0 row'.
Proof.
  intros Hneeds [-> | (_ & t0 & Ht0 & ->)] [-> | (t & Ht & ->)].
  - by left.
  - right. eauto.
  - right. eauto.
  - right. split; [done|]. exists t. split; [done|]. done.
Qed.

Lemma lyrics_changes_keep (row row' : Genius.SongRecord) :
  lyrics_changes row row' →
  Genius.artist row' = Genius.artist row
  ∧ Genius.song row' = Genius.song row
  ∧ Genius.genius_artist row' = Genius.genius_artist row
  ∧ Genius.genius_song row' = Genius.genius_song row
  ∧ Genius.genius_url row' = Genius.genius_url row
  ∧ (Genius.lyrics row ≠ None → row' = row)
  ∧ (Genius.genius_url row = None → row' = row)
  ∧ (Genius.lyrics row' = Some "" → row' = row).
Proof.
  intros [-> | (Hneeds & text & Htext & ->)]; simpl; split_and!; try done.
  - intros Hset. unfold Genius.needs_lyrics in Hneeds.
    destruct (Genius.lyrics row); [|done]. by rewrite andb_false_r in Hneeds.
  - intros Hnull. unfold Genius.needs_lyrics in Hneeds. by rewrite Hnull in Hneeds.
  - intros [=]. done.
Qed.

Lemma lyrics_body_fetches (i : nat) (w : Genius.LyricsWorld) :
  (length (Genius.fetched (Genius.lyrics_body site i w).2)
   ≤ length (Genius.fetched w) + 1)%nat.
Proof.
  destruct (Genius.songs w !! i) as [row|] eqn:Hrow;
    [destruct (Genius.genius_url row) as [url_song|] eqn:Hurl|].
  - destruct (lyrics_turn w i row url_song Hrow Hurl)
      as (outcome & row' & -> & _).
    simpl. rewrite length_app. simpl. lia.
  - unfold Genius.lyrics_body. rewrite Hrow, Hurl. simpl. lia.
  - unfold Genius.lyrics_body. rewrite Hrow. simpl. lia.
Qed.

(** The invariant of the lyrics loop: the frame keeps its length, and each
    row is as it was or has got a text. *)
Lemma lyrics_stage_invariant (snapshot : list Genius.SongRecord) :
  length (Genius.songs
            (Genius.lyrics_stage site
               {| Genius.songs := snapshot; Genius.fetched := [] |}).2)
  = length snapshot
  ∧ (∀ i row row',
       snapshot !! i = Some row →
       Genius.songs
         (Genius.lyrics_stage site
            {| Genius.songs := snapshot; Genius.fetched := [] |}).2 !! i
       = Some row' →
       lyrics_changes row row').
Proof.
  unfold Genius.lyrics_stage, bind, get_state. simpl.
  pose (I := λ w : Genius.LyricsWorld,
    length (Genius.songs w) = length snapshot
    ∧ ∀ i row row', snapshot !! i = Some row →
                    Genius.songs w !! i = Some row' →
                    lyrics_changes row row').
  assert (I (for_each (query_index Genius.needs_lyrics snapshot)
               (Genius.lyrics_body site)
               {| Genius.songs := snapshot; Genius.fetched := [] |}).2)
    as HI; [|exact HI].
  { apply for_each_preserves.
    - intros x w (row0 & Hx & Hneeds)%elem_of_query_index [Hlen Hrows].
      destruct (lookup_lt_is_Some_2 (Genius.songs w) x) as [rowx Hrowx].
      { rewrite Hlen. by eapply lookup_lt_Some. }
      pose proof (Hrows x row0 rowx Hx Hrowx) as Hchg.
      destruct (Genius.genius_url rowx) as [url_song|] eqn:Hurl.
      + destruct (lyrics_turn w x rowx url_song Hrowx Hurl)
          as (outcome & row' & -> & Hwritten & _).
        unfold I. simpl. split; [by rewrite length_insert|].
        intros i row row1 Hi Hi1.
        destruct (decide (i = x)) as [->|Hne].
        * rewrite list_lookup_insert_eq in Hi1 by (by eapply lookup_lt_Some).
          simplify_eq. by eapply lyrics_changes_step.
        * rewrite list_lookup_insert_ne in Hi1 by done. by apply (Hrows i).
      + unfold Genius.lyrics_body. rewrite Hrowx, Hurl. done.
    - split; [done|]. intros i row row' Hi Hi'. simplify_eq/=. by left. }
Qed.

(** X8. However the lyrics loop ends, it neither adds nor drops a row, and
    it changes nothing but the lyrics of rows that had a [genius_url] and no
    lyrics, which it sets to a text that is not empty: a row with lyrics, or
    without URL, is not touched, and an empty text or a status other than
    200 leaves the row as it was, to be fetched again by the next run. It
    fetches at most one page for each such row. *)
Theorem lyrics_stage_writes_only_texts (snapshot : list Genius.SongRecord) :
  length (Genius.songs
            (Genius.lyrics_stage site
               {| Genius.songs := snapshot; Genius.fetched := [] |}).2)
  = length snapshot
  ∧ (∀ i row row',
       snapshot !! i = Some row →
       Genius.songs
         (Genius.lyrics_stage site
            {| Genius.songs := snapshot; Genius.fetched := [] |}).2 !! i
       = Some row' →
       lyrics_changes row row'
       ∧ Genius.artist row' = Genius.artist row
       ∧ Genius.song row' = Genius.song row
       ∧ Genius.genius_artist row' = Genius.genius_artist row
       ∧ Genius.genius_song row' = Genius.genius_song row
       ∧ Genius.genius_url row' = Genius.genius_url row
       ∧ (Genius.lyrics row ≠ None → row' = row)
       ∧ (Genius.genius_url row = None → row' = row)
       ∧ (Genius.lyrics row' = Some "" → row' = row))
  ∧ (length (Genius.fetched
               (Genius.lyrics_stage site
                  {| Genius.songs := snapshot; Genius.fetched := [] |}).2)
     ≤ length (filter (λ row, Genius.needs_lyrics row = true) snapshot))%nat.
Proof.
  destruct (lyrics_stage_invariant snapshot) as [Hlen Hrows].
  split_and!; [done | |].
  - intros i row row' Hi Hi'. pose proof (Hrows i row row' Hi Hi') as Hchg.
    split; [done|]. by apply lyrics_changes_keep.
  - unfold Genius.lyrics_stage, bind, get_state. simpl.
    pose proof (for_each_cost (Genius.lyrics_body site)
                  (λ w, length (Genius.fetched w)) 1
                  (query_index Genius.needs_lyrics snapshot) lyrics_body_fetches
                  {| Genius.songs := snapshot; Genius.fetched := [] |}) as H.
    simpl in H. rewrite length_query_index in H. lia.
Qed.

End lyrics_facts.

Section genius_run_facts.
Context (_normalize : string → string).
Context (api : nat → string → Genius.search_response).
Context (site : nat → string → Genius.lyrics_response).

Lemma lyrics_stage_pages (mid : list Genius.SongRecord) (lw : Genius.LyricsWorld) :
  Genius.lyrics_stage site {| Genius.songs := mid; Genius.fetched := [] |}
  = (Ok tt, lw) →
  Genius.fetched lw
  = omap Genius.genius_url (filter (λ row, Genius.needs_lyrics row = true) mid).
Proof.
  unfold Genius.lyrics_stage, bind, get_state. simpl. intros Hloop.
  rewrite <- query_index_omap.
  pose (P := λ (handled : list nat) (w : Genius.LyricsWorld),
    length (Genius.songs w) = length mid
    ∧ (∀ i row row', mid !! i = Some row → Genius.songs w !! i = Some row' →
                     lyrics_changes row row')
    ∧ Genius.fetched w = omap (λ r, mid !! r ≫= Genius.genius_url) handled).
  assert (P (query_index Genius.needs_lyrics mid) lw) as (_ & _ & Hpages);
    [|done].
  eapply (for_each_ok_invariant (Genius.lyrics_body site) P); [| |exact Hloop].
  - intros handled x rest w w' Hitems (Hlen & Hrows & Hfetched) Hbody.
    assert (x ∈ query_index Genius.needs_lyrics mid) as Hx.
    { rewrite Hitems. apply elem_of_app. right. left. }
    apply elem_of_query_index in Hx as (row0 & Hx & Hneeds).
    destruct (lookup_lt_is_Some_2 (Genius.songs w) x) as [rowx Hrowx].
    { rewrite Hlen. by eapply lookup_lt_Some. }
    pose proof (Hrows x row0 rowx Hx Hrowx) as Hchg.
    assert (∃ url_song, Genius.genius_url row0 = Some url_song) as [url_song Hurl0].
    { unfold Genius.needs_lyrics in Hneeds.
      destruct (Genius.genius_url row0); [eauto | done]. }
    assert (Genius.genius_url rowx = Some url_song) as Hurl.
    { apply lyrics_changes_keep in Hchg as (_ & _ & _ & _ & -> & _). done. }
    destruct (lyrics_turn site w x rowx url_song Hrowx Hurl)
      as (outcome & row' & Hturn & Hwritten & _).
    rewrite Hturn in Hbody. injection Hbody as _ <-.
    unfold P. simpl. split_and!.
    + by rewrite length_insert.
    + intros i row row1 Hi Hi1.
      destruct (decide (i = x)) as [->|Hne].
      * rewrite list_lookup_insert_eq in Hi1 by (by eapply lookup_lt_Some).
        simplify_eq. by eapply lyrics_changes_step.
      * rewrite list_lookup_insert_ne in Hi1 by done. by apply (Hrows i).
    + rewrite omap_app, Hfetched. cbn [omap list_omap]. rewrite Hx.
      cbn [mbind option_bind]. by rewrite Hurl0.
  - unfold P. simpl. split_and!; [done | | done].
    intros i row row' Hi Hi'. simplify_eq. by left.
Qed.

(** X9. A run of the Genius scraper that ends normally has written the
    frame it ends with, of as many rows as it started with, and has fetched
    one page for each row that had a [genius_url] and no lyrics when the
    search loop was over, in row order: the songs the search found in this
    very run have their lyrics fetched in the same run. A run that ends on an
    exception writes nothing, whatever it had found. *)
Theorem genius_run_composes
    (drawn : list nat) (snapshot : list Genius.SongRecord) :
  (Genius.ended (GeniusRun.main _normalize api site drawn snapshot) = Ok tt →
   Genius.saved (GeniusRun.main _normalize api site drawn snapshot)
   = Some (Genius.frame (GeniusRun.main _normalize api site drawn snapshot))
   ∧ length (Genius.frame (GeniusRun.main _normalize api site drawn snapshot))
     = length snapshot
   ∧ Genius.pages (GeniusRun.main _normalize api site drawn snapshot)
     = omap Genius.genius_url
         (filter (λ row, Genius.needs_lyrics row = true)
            (Genius.df_songs
               (Genius.search_stage _normalize api drawn
                  {| Genius.df_songs := snapshot; Genius.log := [] |}).2)))
  ∧ (Genius.ended (GeniusRun.main _normalize api site drawn snapshot) ≠ Ok tt →
     Genius.saved (GeniusRun.main _normalize api site drawn snapshot) = None).
Proof.
  unfold GeniusRun.main.
  pose proof (search_stage_invariant _normalize api drawn snapshot)
    as [Hlen1 _].
  destruct (Genius.search_stage _normalize api drawn _) as [[[]|e] w] eqn:Hsearch;
    simpl in *; [|split; [done|done]].
  pose proof (lyrics_stage_invariant site (Genius.df_songs w))
    as [Hlen2 _].
  destruct (Genius.lyrics_stage site _) as [[[]|e] lw] eqn:Hlyrics;
    simpl in *; [|split; [done|done]].
  split; [|done]. intros _. split_and!; [done | congruence |].
  by apply lyrics_stage_pages.
Qed.

End genius_run_facts.

(** ** The frame of a first run *)

Section drop_duplicates_facts.
Context {A : Type} `{EqDecision A}.
Implicit Types (l seen : list A).

Lemma elem_of_drop_duplicates_go l :
  ∀ seen x, x ∈ Genius.drop_duplicates_go seen l ↔ x ∈ l ∧ x ∉ seen.
Proof.
  induction l as [|y l IH]; intros seen x; simpl.
  - split; [by intros ?%elem_of_nil | by intros [?%elem_of_nil _]].
  - destruct (decide (y ∈ seen)) as [Hseen|Hnew].
    + rewrite IH, elem_of_cons. split; [by intros [? ?]; auto|].
      intros [[->|?] ?]; [done | auto].
    + rewrite elem_of_cons, IH, not_elem_of_cons, elem_of_cons. split.
      * intros [-> | (? & ? & ?)]; auto.
      * intros [[->|?] ?]; [by left|].
        destruct (decide (x = y)) as [->|?]; [by left | right; auto].
Qed.

Lemma NoDup_drop_duplicates_go l :
  ∀ seen, NoDup (Genius.drop_duplicates_go seen l).
Proof.
  induction l as [|y l IH]; intros seen; simpl; [constructor|].
  destruct (decide (y ∈ seen)); [apply IH|].
  constructor; [|apply IH].
  rewrite elem_of_drop_duplicates_go, not_elem_of_cons. by intros (_ & ? & _).
Qed.

Lemma drop_duplicates_go_sublist l :
  ∀ seen, Genius.drop_duplicates_go seen l `sublist_of` l.
Proof.
  induction l as [|y l IH]; intros seen; simpl; [done|].
  destruct (decide (y ∈ seen)).
  - by apply sublist_cons.
  - by apply sublist_skip.
Qed.

Lemma drop_duplicates_go_snoc l x :
  ∀ seen,
    Genius.drop_duplicates_go seen (l ++ [x])
    = if decide (x ∈ seen ++ l) then Genius.drop_duplicates_go seen l
      else Genius.drop_duplicates_go seen l ++ [x].
Proof.
  induction l as [|y l IH]; intros seen; simpl.
  - rewrite app_nil_r. by destruct (decide (x ∈ seen)).
  - destruct (decide (y ∈ seen)) as [Hseen|Hnew].
    + rewrite IH. destruct (decide (x ∈ seen ++ l)) as [Hin|Hout].
      * rewrite decide_True; [done|].
        apply elem_of_app in Hin as [?|?]; apply elem_of_app; [by left|].
        right. by right.
      * destruct (decide (x ∈ seen ++ y :: l)) as [Hin|]; [|done].
        exfalso. apply Hout.
        apply elem_of_app in Hin as [?|[->|?]%elem_of_cons];
          apply elem_of_app; auto.
    + rewrite IH. destruct (decide (x ∈ (y :: seen) ++ l)) as [Hin|Hout].
      * rewrite decide_True; [done|].
        apply elem_of_app in Hin as [[->|?]%elem_of_cons|?];
          apply elem_of_app; [right; left | by left | right; by right].
      * rewrite decide_False; [done|]. intros Hin. apply Hout.
        apply elem_of_app in Hin as [?|[->|?]%elem_of_cons];
          apply elem_of_app; [left; by right | left; left | by right].
Qed.

End drop_duplicates_facts.

Lemma first_frame_keys (chart : list (string * string)) :
  song_key <$> Genius.first_frame chart = Genius.drop_duplicates chart.
Proof.
  unfold Genius.first_frame. rewrite <- list_fmap_compose.
  rewrite <- (list_fmap_id (Genius.drop_duplicates chart)) at 2.
  apply list_fmap_ext. by intros i [a s] _.
Qed.

Lemma first_frame_rows (chart : list (string * string)) (row : Genius.SongRecord) :
  row ∈ Genius.first_frame chart →
  Genius.genius_artist row = None ∧ Genius.genius_song row = None
  ∧ Genius.genius_url row = None ∧ Genius.lyrics row = None.
Proof.
  unfold Genius.first_frame.
  intros ([a s] & -> & _)%list_elem_of_fmap. done.
Qed.

(** X10. The frame of a first run has one row for each distinct
    (artist, song) pair of the chart, in the order of their first
    appearance, and every Genius field of every row is null: every row is
    waiting for the search, and none for the lyrics. *)
Theorem first_frame_has_one_row_per_song (chart : list (string * string)) :
  NoDup (song_key <$> Genius.first_frame chart)
  ∧ (∀ key, key ∈ song_key <$> Genius.first_frame chart ↔ key ∈ chart)
  ∧ (song_key <$> Genius.first_frame chart) `sublist_of` chart
  ∧ (∀ key,
       song_key <$> Genius.first_frame (chart ++ [key])
       = if decide (key ∈ chart) then song_key <$> Genius.first_frame chart
         else (song_key <$> Genius.first_frame chart) ++ [key])
  ∧ query_index Genius.needs_search (Genius.first_frame chart)
    = seq 0 (length (Genius.first_frame chart))
  ∧ query_index Genius.needs_lyrics (Genius.first_frame chart) = [].
Proof.
  rewrite first_frame_keys. split_and!.
  - apply NoDup_drop_duplicates_go.
  - intros key. unfold Genius.drop_duplicates.
    rewrite elem_of_drop_duplicates_go. split; [by intros [? _]|].
    intros ?. split; [done | apply not_elem_of_nil].
  - apply drop_duplicates_go_sublist.
  - intros key. rewrite first_frame_keys. unfold Genius.drop_duplicates.
    by rewrite drop_duplicates_go_snoc.
  - pose proof (first_frame_rows chart) as Hrows. unfold query_index.
    generalize 0%nat.
    induction (Genius.first_frame chart) as [|row rows IH]; intros i; [done|].
    simpl. unfold Genius.needs_search at 1.
    destruct (Hrows row (list_elem_of_here _ _)) as (_ & _ & -> & _). simpl.
    f_equal. apply IH. intros row' Hin. apply Hrows. by right.
  - pose proof (first_frame_rows chart) as Hrows. unfold query_index.
    generalize 0%nat.
    induction (Genius.first_frame chart) as [|row rows IH]; intros i; [done|].
    simpl. unfold Genius.needs_lyrics at 1.
    destruct (Hrows row (list_elem_of_here _ _)) as (_ & _ & -> & _). simpl.
    apply IH. intros row' Hin. apply Hrows. by right.
Qed.

(** ** Runs of the artist script *)

Lemma query_index_nil {A} (p : A → bool) (rows : list A) :
  (∀ row, row ∈ rows → p row = false) → query_index p rows = [].
Proof.
  unfold query_index. generalize 0%nat.
  induction rows as [|row rows IH]; intros i Hnone; [done|]. simpl.
  rewrite (Hnone row) by left. apply IH. intros row' Hin. apply Hnone. by right.
Qed.

(** X11. A snapshot in which every row has an [mb_id] and a [genius_url] is
    a fixed point: a run over it makes no request, prints nothing, does not
    sleep, and ends with the same frame. *)
Theorem finished_snapshot_is_a_fixed_point
    (net : Network) (snapshot : list ArtistRecord) :
  (∀ row, row ∈ snapshot → mb_id row ≠ None ∧ genius_url row ≠ None) →
  run net snapshot = (Ok tt, {| df_artists := snapshot; log := [] |}).
Proof.
  intros Hdone. unfold run, main, lookup_stage, details_stage, bind, get_state.
  simpl. rewrite query_index_nil.
  - simpl. rewrite query_index_nil; [done|].
    intros row [_ Hurl]%Hdone. unfold needs_details.
    by destruct (genius_url row).
  - intros row [Hid _]%Hdone. unfold needs_lookup. by destruct (mb_id row).
Qed.

(** X12. A run keeps what earlier runs stored: it neither adds nor drops a
    row and never changes an artist; the fields of the registry of a row
    that had an [mb_id] are as they were; and the identifiers of the detail
    page of a row that had a [genius_url] are as they were. *)
Theorem run_keeps_what_is_stored
    (net : Network) (snapshot : list ArtistRecord) :
  ∃ final evs,
    run net snapshot = (Ok tt, {| df_artists := final; log := evs |})
    ∧ artist <$> final = artist <$> snapshot
    ∧ ∀ r row f,
        snapshot !! r = Some row → final !! r = Some f →
        (mb_id row ≠ None →
         type f = type row ∧ gender f = gender row ∧ country f = country row
         ∧ time_begin f = time_begin row ∧ time_end f = time_end row
         ∧ begin_area_id f = begin_area_id row
         ∧ end_area_id f = end_area_id row ∧ mb_id f = mb_id row)
        ∧ (genius_url row ≠ None →
           wikidata_id f = wikidata_id row ∧ discogs_id f = discogs_id row
           ∧ genius_url f = genius_url row).
Proof.
  destruct (run_spec net snapshot)
    as (mid & final & evs1 & evs2 & Hrun & Hlen1 & Hlen2 & Hrows1 & Hrows2 & _).
  exists final, (evs1 ++ evs2). split; [done|].
  assert (∀ r row f, snapshot !! r = Some row → final !! r = Some f →
            ∃ m, mid !! r = Some m
                 ∧ ((mb_id row ≠ None → m = row) ∧ lookup_changes row m)
                 ∧ ((needs_details m = false → f = m) ∧ details_changes m f))
    as Hboth.
  { intros r row f Hr Hf.
    destruct (lookup_lt_is_Some_2 mid r) as [m Hm].
    { rewrite Hlen1. by eapply lookup_lt_Some. }
    exists m. split; [done|]. split; [by apply (Hrows1 r) | by apply (Hrows2 r)]. }
  split.
  - apply list_eq. intros r. rewrite !list_lookup_fmap.
    destruct (snapshot !! r) as [row|] eqn:Hr.
    + destruct (lookup_lt_is_Some_2 final r) as [f Hf].
      { rewrite Hlen2. by eapply lookup_lt_Some. }
      rewrite Hf. simpl. f_equal.
      destruct (Hboth r row f Hr Hf) as (m & _ & [_ Hchg1] & [_ Hchg2]).
      apply lookup_changes_keep in Hchg1 as (Ha1 & _).
      apply details_changes_keep in Hchg2 as (Ha2 & _). congruence.
    + rewrite (lookup_ge_None_2 final r); [done|].
      rewrite Hlen2. by apply lookup_ge_None_1.
  - intros r row f Hr Hf.
    destruct (Hboth r row f Hr Hf) as (m & _ & [Hsame1 Hchg1] & [Hsame2 Hchg2]).
    split.
    + intros Hset. rewrite <- (Hsame1 Hset).
      destruct Hchg2 as [-> | [d ->]]; simpl; split_and!; done.
    + intros Hset.
      apply lookup_changes_keep in Hchg1 as (_ & Hurl & Hwiki & Hdiscogs & _).
      rewrite (Hsame2); [by rewrite Hurl, Hwiki, Hdiscogs|].
      unfold needs_details. rewrite Hurl. by destruct (genius_url row).
Qed.

Lemma seconds_slept_app (evs1 evs2 : list event) :
  seconds_slept (evs1 ++ evs2) = (seconds_slept evs1 + seconds_slept evs2)%nat.
Proof. unfold seconds_slept. by rewrite omap_app, sum_list_with_app. Qed.

Lemma lookup_body_sleeps (net : Network) (r : nat) (w : World) :
  (seconds_slept (log (lookup_body net r w).2) ≤ seconds_slept (log w) + 30)%nat.
Proof.
  destruct (df_artists w !! r) as [row|] eqn:Hrow.
  - destruct (registry_answer net w row) as [[d|]|e] eqn:Hanswer.
    + rewrite (lookup_body_success net w r row Hrow d Hanswer). simpl.
      rewrite seconds_slept_app. unfold seconds_slept at 2. simpl. lia.
    + rewrite (lookup_body_empty net w r row Hrow Hanswer). simpl.
      rewrite seconds_slept_app. unfold seconds_slept at 2. simpl. lia.
    + rewrite (lookup_body_failure net w r row Hrow e Hanswer). simpl.
      rewrite seconds_slept_app. unfold seconds_slept at 2. simpl. lia.
  - unfold lookup_body, try_except, bind, loc. rewrite Hrow. simpl.
    rewrite Hrow. simpl. lia.
Qed.

Lemma details_body_sleeps (net : Network) (r : nat) (w : World) :
  (seconds_slept (log (details_body net r w).2) ≤ seconds_slept (log w) + 10)%nat.
Proof.
  destruct (df_artists w !! r) as [row|] eqn:Hrow.
  - destruct (detail_answer net w row) as [d|e] eqn:Hanswer.
    + rewrite (details_body_success net w r row Hrow d Hanswer). simpl.
      rewrite seconds_slept_app. unfold seconds_slept at 2. simpl. lia.
    + rewrite (details_body_failure net w r row Hrow e Hanswer). simpl.
      rewrite seconds_slept_app. unfold seconds_slept at 2. simpl. lia.
  - unfold details_body, try_except, bind, loc. rewrite Hrow. simpl.
    rewrite Hrow. simpl. lia.
Qed.

Lemma filter_length_Forall2 {A} (p q : A → bool) (l k : list A) :
  Forall2 (λ x y, q y = true → p x = true) l k →
  (length (filter (λ y, q y = true) k) ≤ length (filter (λ x, p x = true) l))%nat.
Proof.
  induction 1 as [|x y l k Hxy _ IH]; [done|].
  rewrite !filter_cons.
  destruct (decide (q y = true)) as [Hq|Hq].
  - rewrite decide_True by auto. simpl. lia.
  - destruct (decide (p x = true)); simpl; lia.
Qed.

(** X13. A run sleeps at most 30 seconds for each row without [mb_id] and
    10 seconds for each row without [genius_url]. *)
Theorem run_sleep_is_bounded (net : Network) (snapshot : list ArtistRecord) :
  ∃ final evs,
    run net snapshot = (Ok tt, {| df_artists := final; log := evs |})
    ∧ (seconds_slept evs
       ≤ 30 * length (filter (λ row, mb_id row = None) snapshot)
         + 10 * length (filter (λ row, genius_url row = None) snapshot))%nat.
Proof.
  destruct (lookup_stage_spec net {| df_artists := snapshot; log := [] |})
    as (mid & evs1 & Hstage1 & Hlen1 & Hrows1 & _).
  destruct (details_stage_spec net {| df_artists := mid; log := evs1 |})
    as (final & evs2 & Hstage2 & _).
  simpl in *. exists final, (evs1 ++ evs2). split.
  { unfold run, main, bind. by rewrite Hstage1. }
  pose proof (for_each_cost (lookup_body net) (λ w, seconds_slept (log w)) 30
                (query_index needs_lookup snapshot) (lookup_body_sleeps net)
                {| df_artists := snapshot; log := [] |}) as Hcost1.
  change (for_each (query_index needs_lookup snapshot) (lookup_body net)
            {| df_artists := snapshot; log := [] |})
    with (lookup_stage net {| df_artists := snapshot; log := [] |}) in Hcost1.
  rewrite Hstage1 in Hcost1.
  pose proof (for_each_cost (details_body net) (λ w, seconds_slept (log w)) 10
                (query_index needs_details mid) (details_body_sleeps net)
                {| df_artists := mid; log := evs1 |}) as Hcost2.
  change (for_each (query_index needs_details mid) (details_body net)
            {| df_artists := mid; log := evs1 |})
    with (details_stage net {| df_artists := mid; log := evs1 |}) in Hcost2.
  rewrite Hstage2 in Hcost2.
  cbn [snd log] in Hcost1, Hcost2.
  rewrite !length_query_index in *.
  assert (length (filter (λ row, needs_details row = true) mid)
          ≤ length (filter (λ row, is_null (genius_url row) = true) snapshot))%nat
    as Hfewer.
  { apply filter_length_Forall2.
    apply Forall2_same_length_lookup_2; [done|].
    intros r row m Hr Hm Hneeds.
    destruct (Hrows1 r row m Hr Hm) as [_ Hchg].
    apply lookup_changes_keep in Hchg as (_ & <- & _).
    unfold needs_details in Hneeds. by destruct (genius_url m). }
  assert (∀ (f : ArtistRecord → option string) (rows : list ArtistRecord),
            length (filter (λ row, is_null (f row) = true) rows)
            = length (filter (λ row, f row = None) rows)) as Hnull.
  { intros f rows. f_equal. apply list_filter_iff.
    intros row. by destruct (f row). }
  unfold needs_lookup in Hcost1.
  rewrite (Hnull mb_id) in Hcost1. rewrite (Hnull genius_url) in Hfewer.
  change (seconds_slept []) with 0%nat in Hcost1. lia.
Qed.

(** ** The expansion as [main] calls it *)

Lemma keep_splits_Some (chat_dict : gmap string (list string))
    (name : string) (names : list string) :
  Expander.keep_splits chat_dict !! name = Some names ↔
  chat_dict !! name = Some names ∧ (1 < length names)%nat.
Proof. unfold Expander.keep_splits. by rewrite map_lookup_filter_Some. Qed.

Lemma keep_splits_None (chat_dict : gmap string (list string)) (name : string) :
  Expander.keep_splits chat_dict !! name = None ↔
  ∀ names, chat_dict !! name = Some names → (length names ≤ 1)%nat.
Proof.
  unfold Expander.keep_splits. rewrite map_lookup_filter_None. split.
  - intros [Hnone | Hshort] names Hnames; [congruence|].
    specialize (Hshort names Hnames). simpl in Hshort. lia.
  - intros Hshort. destruct (chat_dict !! name) as [names|] eqn:Hnames;
      [right | by left].
    intros names' [= <-]. simpl. specialize (Hshort names eq_refl). lia.
Qed.

(** X14. As [main] calls it, on the mapping reduced to the entries of more
    than one name, the expansion follows the mapping without proviso: a row
    whose artist has such an entry becomes one row per name, a row whose
    artist has no entry, or an entry of one name or of none, stays as it
    is. No row is lost, and no artist becomes null. *)
Theorem expand_artists_follows_the_splits
    {R : Type} (df : list (Expander.Row R))
    (chat_dict : gmap string (list string)) :
  Expander.expand_artists df chat_dict
  = df ≫= Expander.rows_of (Expander.keep_splits chat_dict)
  ∧ (length df ≤ length (Expander.expand_artists df chat_dict))%nat
  ∧ (∀ (row : Expander.Row R) name names,
       Expander.artist row = Some name → chat_dict !! name = Some names →
       Expander.rows_of (Expander.keep_splits chat_dict) row
       = if decide (1 < length names)%nat
         then (λ n, {| Expander.artist := Some n;
                       Expander.others := Expander.others row |}) <$> names
         else [row])
  ∧ (∀ (row : Expander.Row R) name,
       Expander.artist row = Some name → chat_dict !! name = None →
       Expander.rows_of (Expander.keep_splits chat_dict) row = [row])
  ∧ (Forall (λ row, Expander.artist row ≠ None) df →
     Forall (λ row, Expander.artist row ≠ None)
       (Expander.expand_artists df chat_dict)).
Proof.
  assert (Expander.expand_artists df chat_dict
          = df ≫= Expander.rows_of (Expander.keep_splits chat_dict)) as Hrows.
  { apply expand_follows_nonempty_mapping.
    intros key names [_ Hlong]%keep_splits_Some ->. simpl in Hlong. lia. }
  assert (∀ (row : Expander.Row R) name names,
            Expander.artist row = Some name → chat_dict !! name = Some names →
            Expander.rows_of (Expander.keep_splits chat_dict) row
            = if decide (1 < length names)%nat
              then (λ n, {| Expander.artist := Some n;
                            Expander.others := Expander.others row |}) <$> names
              else [row]) as Hentry.
  { intros row name names Hartist Hnames. unfold Expander.rows_of.
    rewrite Hartist. simpl. destruct (decide (1 < length names)%nat) as [Hlong|Hshort].
    - by rewrite (proj2 (keep_splits_Some chat_dict name names)).
    - rewrite (proj2 (keep_splits_None chat_dict name)); [done|].
      intros names' Hnames'. simplify_eq. lia. }
  assert (∀ (row : Expander.Row R) name,
            Expander.artist row = Some name → chat_dict !! name = None →
            Expander.rows_of (Expander.keep_splits chat_dict) row = [row])
    as Hmissing.
  { intros row name Hartist Hnone. unfold Expander.rows_of.
    rewrite Hartist. simpl.
    rewrite (proj2 (keep_splits_None chat_dict name)); [done|].
    intros names Hnames. congruence. }
  assert (∀ row : Expander.Row R,
            (1 ≤ length (Expander.rows_of (Expander.keep_splits chat_dict) row))%nat
            ∧ (Expander.artist row ≠ None →
               Forall (λ row', Expander.artist row' ≠ None)
                 (Expander.rows_of (Expander.keep_splits chat_dict) row)))
    as Heach.
  { intros row. destruct (Expander.artist row) as [name|] eqn:Hartist.
    - destruct (chat_dict !! name) as [names|] eqn:Hnames.
      + rewrite (Hentry row name names Hartist Hnames).
        destruct (decide (1 < length names)%nat).
        * split; [rewrite length_fmap; lia|]. intros _.
          apply Forall_fmap, Forall_true. done.
        * split; [simpl; lia|]. intros _. constructor; [|done]. by rewrite Hartist.
      + rewrite (Hmissing row name Hartist Hnames).
        split; [simpl; lia|]. intros _. constructor; [|done]. by rewrite Hartist.
    - split; [|done]. unfold Expander.rows_of. rewrite Hartist. simpl. lia. }
  split_and!; try done.
  - rewrite Hrows. clear Hrows. induction df as [|row df IH]; [done|].
    rewrite bind_cons, length_app. simpl.
    destruct (Heach row) as [Hone _]. lia.
  - rewrite Hrows. clear Hrows. induction 1 as [|row df Hrow Hdf IH]; [done|].
    rewrite bind_cons. apply Forall_app. split; [|done]. by apply Heach.
Qed.

(** ** What is stored of the registry and of the detail page *)

Lemma chars_lower (s : string) : chars (lower s) = lower_ascii <$> chars s.
Proof.
  unfold chars. induction s as [|c s IH]; [done|].
  simpl. rewrite IH. done.
Qed.

Lemma lower_ascii_not_upper (c : ascii) : is_upper (lower_ascii c) = false.
Proof.
  destruct c as [[] [] [] [] [] [] [] []]; vm_compute; reflexivity.
Qed.

Lemma lower_is_lower_case (s : string) : lower_case (lower s).
Proof.
  intros c. rewrite chars_lower. intros (c0 & -> & _)%list_elem_of_fmap.
  apply lower_ascii_not_upper.
Qed.

Lemma chars_rev_app (s1 s2 : string) :
  chars (String.rev_app s1 s2) = reverse (chars s1) ++ chars s2.
Proof.
  revert s2. induction s1 as [|c s1 IH]; intros s2; [done|].
  simpl. rewrite IH. change (chars (String c s1)) with (c :: chars s1).
  rewrite reverse_cons, <- app_assoc. done.
Qed.

Lemma chars_rev (s : string) : chars (String.rev s) = reverse (chars s).
Proof. unfold String.rev. by rewrite chars_rev_app, app_nil_r. Qed.

(** [lstrip] drops a prefix and leaves a string that does not begin with
    white space. *)
Lemma chars_lstrip (s : string) :
  (∃ dropped, chars s = dropped ++ chars (lstrip s))
  ∧ ∀ c, head (chars (lstrip s)) = Some c → Ascii.is_space c = false.
Proof.
  induction s as [|c s [[dropped IH1] IH2]]; [split; [by exists []|done]|].
  simpl. destruct (is_whitespace c) eqn:Hc.
  - split; [|done]. exists (c :: dropped).
    change (chars (String c s)) with (c :: chars s). by rewrite IH1.
  - split; [by exists []|]. intros c' [= <-].
    unfold is_whitespace in Hc. by apply orb_false_iff in Hc as [? _].
Qed.

Lemma strip_spec (s : string) :
  trimmed (strip s) ∧ ∀ c, c ∈ chars (strip s) → c ∈ chars s.
Proof.
  unfold strip.
  destruct (chars_lstrip s) as [[d1 Hs] Hhead1].
  destruct (chars_lstrip (String.rev (lstrip s))) as [[d2 Ht] Hhead2].
  rewrite chars_rev in Ht.
  set (b := chars (lstrip (String.rev (lstrip s)))) in *.
  split.
  - intros c. unfold chars at 1 2. fold (chars (String.rev (lstrip (String.rev (lstrip s))))).
    rewrite chars_rev. fold b. rewrite head_reverse, last_reverse.
    intros [Hlast | Hhead]; [|by apply Hhead2].
    apply Hhead1. rewrite <- last_reverse, Ht.
    rewrite last_app, Hlast. done.
  - intros c. rewrite chars_rev. fold b. rewrite elem_of_reverse. intros Hc.
    rewrite Hs. apply elem_of_app. right.
    apply elem_of_reverse. rewrite Ht. apply elem_of_app. by right.
Qed.

Lemma last_segment_go_chars (sep : ascii) (s : string) :
  ∀ cur c, c ∈ chars (last_segment_go sep s cur) →
           c ≠ sep ∨ (c ∈ chars cur ∧ sep ∈ chars cur).
Proof.
  induction s as [|b s IH]; intros cur c; simpl.
  - rewrite chars_rev, elem_of_reverse. intros Hc.
    destruct (decide (c = sep)) as [->|]; [by right | by left].
  - case_bool_decide as Hb.
    + intros Hc. destruct (IH "" c Hc) as [?|[[]%elem_of_nil _]]. by left.
    + intros Hc. destruct (IH (String b cur) c Hc) as [?|[Hin Hsep]]; [by left|].
      change (chars (String b cur)) with (b :: chars cur) in Hin, Hsep.
      apply elem_of_cons in Hsep as [->|Hsep]; [done|].
      apply elem_of_cons in Hin as [->|Hin]; [by left | by right].
Qed.

Lemma last_segment_no_sep (sep : ascii) (s : string) :
  sep ∉ chars (last_segment sep s).
Proof.
  intros Hin. unfold last_segment in Hin.
  by destruct (last_segment_go_chars sep s "" sep Hin) as [?|[[]%elem_of_nil _]].
Qed.

(** X15. What is stored of a registry match is normalised: the [mb_id],
    and the type, the gender and the country when the match has them, are
    lower-case and have no white space at either end. *)
Theorem registry_fields_are_normalised (m : candidate) :
  (trimmed (q_mb_id (query_dict m)) ∧ lower_case (q_mb_id (query_dict m)))
  ∧ ∀ x, q_type (query_dict m) = Some x ∨ q_gender (query_dict m) = Some x
         ∨ q_country (query_dict m) = Some x →
         trimmed x ∧ lower_case x.
Proof.
  assert (∀ s, trimmed (strip (lower s)) ∧ lower_case (strip (lower s))) as Hnorm.
  { intros s. destruct (strip_spec (lower s)) as [Htrim Hsub]. split; [done|].
    intros c Hc. by apply (lower_is_lower_case s), Hsub. }
  split; [apply Hnorm|]. simpl.
  intros x [Hx | [Hx | Hx]];
    apply fmap_Some in Hx as (s & _ & ->); apply Hnorm.
Qed.

(** X16. What a detail page gives when it can be read: the Wikidata
    identifier has no colon and no white space at either end, the Discogs
    identifier has no slash; an identifier that the page does not show is
    the empty string, not null, whereas the Genius address is null exactly
    when the page has no Genius item. *)
Theorem detail_identifiers_are_clean (p : page) (d : info_data) :
  parse_artist_details (Page p) = Ok d →
  ((":"%char ∉ chars (i_wikidata_id d)) ∧ trimmed (i_wikidata_id d))
  ∧ ("/"%char ∉ chars (i_discogs_id d))
  ∧ (wikidata_li p = None → i_wikidata_id d = "")
  ∧ (discogs_li p = None → i_discogs_id d = "")
  ∧ (i_genius_url d = None ↔ genius_li p = None).
Proof.
  unfold parse_artist_details, result_bind, anchor_href.
  assert (∀ s, (":"%char ∉ chars (strip (last_segment ":" s)))
               ∧ trimmed (strip (last_segment ":" s))) as Hwiki.
  { intros s. destruct (strip_spec (last_segment ":" s)) as [Htrim Hsub].
    split; [|done]. intros Hc. by apply Hsub, last_segment_no_sep in Hc. }
  assert ((":"%char ∉ chars "") ∧ trimmed "") as Hempty.
  { split; [by intros []%elem_of_nil|]. by intros c [[=]|[=]]. }
  assert ("/"%char ∉ chars "") as Hempty' by (by intros []%elem_of_nil).
  destruct (wikidata_li p) as [[wa|]|]; [| done |];
    (destruct (discogs_li p) as [[da|]|]; [| done |]);
    try (destruct (a_href da) as [dh|]; [|done]);
    (destruct (genius_li p) as [[ga|]|]; [| done |]);
    try (destruct (a_href ga) as [gh|]; [|done]);
    intros [= <-]; simpl;
    (split; [first [apply Hwiki | apply Hempty]|]);
    (split; [first [apply last_segment_no_sep | apply Hempty']|]);
    split_and!; done.
Qed.

(** ** The normalisation of names ([_normalize]) *)

Lemma plain_or_space (c : ascii) :
  Genius.py_space (Genius.punctuation_to_space (lower_ascii c)) = true
  ∨ is_plain (Genius.punctuation_to_space (lower_ascii c)).
Proof.
  unfold Genius.punctuation_to_space.
  destruct (Genius.is_word (lower_ascii c)) eqn:Hword; simpl.
  - destruct (Genius.py_space (lower_ascii c)) eqn:Hspace; [by left|].
    right. split_and!; [done | apply lower_ascii_not_upper | done].
  - destruct (Genius.py_space (lower_ascii c)) eqn:Hspace; by left.
Qed.

Lemma collapse_shaped (l : list ascii) :
  Forall (λ c, Genius.py_space c = true ∨ is_plain c) l →
  ∀ in_run, shaped true in_run (Genius.collapse in_run l).
Proof.
  induction 1 as [|c l Hc _ IH]; intros in_run; simpl; [by left|].
  destruct (Genius.py_space c) eqn:Hspace.
  - destruct in_run; [apply IH|]. simpl. split_and!; [done | done | apply IH].
  - simpl. rewrite Hspace. split; [|apply IH]. by destruct Hc as [?|?]; [congruence|].
Qed.

Lemma rstrip_shaped (l : list ascii) :
  (shaped true false l → shaped false false (Genius.rstrip_chars l))
  ∧ (shaped true true l →
     Genius.rstrip_chars l = [] ∨ shaped false true (Genius.rstrip_chars l)).
Proof.
  induction l as [|c l [IH1 IH2]]; simpl; [split; [by right | by left]|].
  destruct (Genius.py_space c) eqn:Hspace.
  - split; [|by intros (_ & [=] & _)].
    intros (-> & _ & Hl). destruct (IH2 Hl) as [-> | Hkept]; [by right|].
    destruct (Genius.rstrip_chars l) as [|k kept] eqn:Hr; [by right|].
    simpl. split_and!; done.
  - assert (is_plain c ∧ shaped true false l →
            ∀ b, shaped false b
                   match Genius.rstrip_chars l with
                   | [] => [c]
                   | k :: kept => c :: k :: kept
                   end) as Hplain.
    { intros [Hc Hl] b. specialize (IH1 Hl).
      destruct (Genius.rstrip_chars l) as [|k kept];
        cbn [shaped]; rewrite Hspace; split; try done. }
    split; intros Hl; [by apply Hplain | right; by apply Hplain].
Qed.

Lemma lstrip_canonical (l : list ascii) :
  shaped false false l → canonical (Genius.lstrip_chars l).
Proof.
  destruct l as [|c l]; [done|]. simpl.
  destruct (Genius.py_space c) eqn:Hspace.
  - intros (_ & _ & Hl). destruct l as [|c' l]; [by destruct Hl|].
    simpl in *. destruct (Genius.py_space c') eqn:Hspace'; [by destruct Hl as (_ & [=] & _)|].
    split; [|done]. simpl. by rewrite Hspace'.
  - intros Hl. split; [|done]. simpl. by rewrite Hspace.
Qed.

(** Canonical text is left as it is by every step of the normalisation. *)
Lemma shaped_fixed (l : list ascii) :
  ∀ b, shaped false b l →
       lower_ascii <$> l = l
       ∧ Genius.punctuation_to_space <$> l = l
       ∧ Genius.collapse b l = l
       ∧ Genius.rstrip_chars l = l.
Proof.
  induction l as [|c l IH]; intros b Hl; [done|]. simpl in Hl.
  destruct (Genius.py_space c) eqn:Hspace.
  - destruct Hl as (-> & -> & Hl). destruct (IH true Hl) as (H1 & H2 & H3 & H4).
    rewrite !fmap_cons, H1, H2. simpl. rewrite H3, H4.
    split_and!; try done.
    destruct l; [by destruct Hl | done].
  - destruct Hl as ((Hword & Hupper & _) & Hl).
    destruct (IH false Hl) as (H1 & H2 & H3 & H4).
    rewrite !fmap_cons, H1, H2. simpl. rewrite Hspace, H3, H4.
    assert (lower_ascii c = c) as ->.
    { unfold lower_ascii. unfold is_upper in Hupper. by rewrite Hupper. }
    assert (Genius.punctuation_to_space c = c) as ->.
    { unfold Genius.punctuation_to_space. by rewrite Hword. }
    split_and!; try done. by destruct l.
Qed.

Lemma normalize_chars (s : string) :
  chars (Genius._normalize s)
  = Genius.lstrip_chars
      (Genius.rstrip_chars
         (Genius.collapse false
            (Genius.punctuation_to_space <$> (lower_ascii <$> chars s)))).
Proof.
  unfold chars. destruct s as [|c s]; [done|]. unfold Genius._normalize.
  rewrite list_ascii_of_string_of_list_ascii. do 4 f_equal.
  apply chars_lower.
Qed.

Lemma normalize_canonical (s : string) : canonical (chars (Genius._normalize s)).
Proof.
  rewrite normalize_chars. apply lstrip_canonical, rstrip_shaped, collapse_shaped.
  rewrite <- list_fmap_compose. apply Forall_fmap, Forall_true.
  intros c. apply plain_or_space.
Qed.

Lemma canonical_fixed (s : string) :
  canonical (chars s) → Genius._normalize s = s.
Proof.
  intros [Hshaped Hhead].
  rewrite <- (string_of_list_ascii_of_string (Genius._normalize s)).
  rewrite <- (string_of_list_ascii_of_string s) at 2. f_equal.
  change (chars (Genius._normalize s) = chars s). rewrite normalize_chars.
  destruct (shaped_fixed (chars s) false Hshaped) as (-> & -> & -> & ->).
  destruct (chars s) as [|c l]; [done|]. simpl. by rewrite Hhead.
Qed.

Lemma shaped_elements (l : list ascii) :
  ∀ b c, shaped false b l → c ∈ l → c = " "%char ∨ is_plain c.
Proof.
  induction l as [|c0 l IH]; intros b c Hl Hc; [by apply elem_of_nil in Hc|].
  simpl in Hl. apply elem_of_cons in Hc as [-> | Hc].
  - destruct (Genius.py_space c0); [left | right]; by destruct Hl.
  - destruct (Genius.py_space c0).
    + destruct Hl as (_ & _ & Hl). by apply (IH true).
    + destruct Hl as [_ Hl]. by apply (IH false).
Qed.

Lemma shaped_last (l : list ascii) :
  ∀ b c, shaped false b l → last l = Some c → Genius.py_space c = false.
Proof.
  induction l as [|c0 l IH]; intros b c Hl Hlast; [done|].
  simpl in Hl. destruct l as [|c1 l].
  - injection Hlast as ->. destruct (Genius.py_space c); [|done].
    destruct Hl as (_ & _ & [? | ?]); done.
  - change (last (c0 :: c1 :: l)) with (last (c1 :: l)) in Hlast.
    destruct (Genius.py_space c0).
    + destruct Hl as (_ & _ & Hl). by apply (IH true).
    + destruct Hl as [_ Hl]. by apply (IH false).
Qed.

Lemma shaped_single_spaces (l : list ascii) :
  ∀ b i, shaped false b l →
         l !! i = Some " "%char → l !! S i ≠ Some " "%char.
Proof.
  induction l as [|c0 l IH]; intros b i Hl Hi; [done|].
  simpl in Hl. destruct i as [|i].
  - injection Hi as ->. simpl in Hl. destruct Hl as (_ & _ & Hl).
    destruct l as [|c1 l]; [done|]. simpl. intros [= ->].
    simpl in Hl. by destruct Hl as (_ & [=] & _).
  - change ((c0 :: l) !! S (S i)) with (l !! S i).
    change ((c0 :: l) !! S i) with (l !! i) in Hi.
    destruct (Genius.py_space c0).
    + destruct Hl as (_ & _ & Hl). by apply (IH true).
    + destruct Hl as [_ Hl]. by apply (IH false).
Qed.

Lemma py_space_is_space (c : ascii) :
  Genius.py_space c = false → Ascii.is_space c = false.
Proof. unfold Genius.py_space. by intros [? _]%orb_false_iff. Qed.

(** X17. The result of [_normalize] on ASCII text is made of lower-case
    letters, digits, underscores and spaces only; it neither starts nor
    ends with white space, and no two spaces follow each other. *)
Theorem normalize_gives_clean_text (s : string) :
  is_ascii s →
  canonical (chars (Genius._normalize s))
  ∧ (∀ c, c ∈ chars (Genius._normalize s) → c = " "%char ∨ is_plain c)
  ∧ trimmed (Genius._normalize s)
  ∧ (∀ i, chars (Genius._normalize s) !! i = Some " "%char →
          chars (Genius._normalize s) !! S i ≠ Some " "%char).
Proof.
  intros _. pose proof (normalize_canonical s) as Hcanonical.
  split; [done|]. destruct Hcanonical as [Hshaped Hhead].
  split_and!.
  - intros c. by apply shaped_elements with false.
  - intros c [Hc | Hc]; apply py_space_is_space.
    + destruct (chars (Genius._normalize s)) as [|c0 l]; [done|].
      by injection Hc as ->.
    + by apply shaped_last with (chars (Genius._normalize s)) false.
  - intros i. by apply shaped_single_spaces with false.
Qed.

Lemma normalize_gives_clean_text_witness :
  is_ascii "  Hey,  JUDE! "
  ∧ Genius._normalize "  Hey,  JUDE! " = "hey jude"
  ∧ trimmed (Genius._normalize "  Hey,  JUDE! ").
Proof.
  assert (is_ascii "  Hey,  JUDE! ") as Hascii.
  { unfold is_ascii. repeat constructor; simpl; lia. }
  split_and!; [done | reflexivity |].
  apply (normalize_gives_clean_text "  Hey,  JUDE! " Hascii).
Defined.

(** X18. [_normalize] is idempotent on ASCII text: normalising a normalised
    name changes nothing, so the names [find_song_index] compares are
    fixed points of the normalisation. *)
Theorem normalize_is_idempotent (s : string) :
  is_ascii s →
  Genius._normalize (Genius._normalize s) = Genius._normalize s.
Proof. intros _. apply canonical_fixed, normalize_canonical. Qed.

Lemma normalize_is_idempotent_witness :
  is_ascii "The  Long & Winding Road"
  ∧ Genius._normalize (Genius._normalize "The  Long & Winding Road")
    = Genius._normalize "The  Long & Winding Road".
Proof.
  assert (is_ascii "The  Long & Winding Road") as Hascii.
  { unfold is_ascii. repeat constructor; simpl; lia. }
  split; [done|].
  apply (normalize_is_idempotent "The  Long & Winding Road" Hascii).
Defined.

(** ** Instances of the further properties *)

Lemma length_append (a b : string) :
  String.length (a +:+ b) = (String.length a + String.length b)%nat.
Proof. induction a as [|c a IH]; [done|]. simpl. by rewrite <- IH. Qed.

Lemma occurs_length (old s : string) :
  occurs old s → (String.length old ≤ String.length s)%nat.
Proof. intros (a & b & ->). rewrite !length_append. lia. Qed.

Lemma find_song_index_precedence_witness :
  [duet_hit; solo_hit] !! 1%nat = Some solo_hit
  ∧ exact_match Genius._normalize Genius.primary_artist_names
      "Under Pressure" "Queen" duet_hit
  ∧ exact_match Genius._normalize Genius.artist_names
      "Under Pressure" "Queen" solo_hit
  ∧ Genius.find_song_index Genius._normalize [duet_hit; solo_hit]
      "Under Pressure" "Queen" = 1%Z.
Proof.
  assert (exact_match Genius._normalize Genius.artist_names
            "Under Pressure" "Queen" solo_hit) as Hsolo.
  { split_and!; reflexivity. }
  split_and!; [reflexivity | split_and!; reflexivity | exact Hsolo |].
  apply (find_song_index_precedence Genius._normalize [duet_hit; solo_hit]
           "Under Pressure" "Queen" 1 solo_hit eq_refl).
  left. split; [exact Hsolo|].
  intros [|j] h' Hj Hh'; [|lia]. injection Hh' as <-.
  intros (_ & Hartist & _). vm_compute in Hartist. discriminate Hartist.
Defined.

Lemma search_turn_witness :
  [new_song "Queen" "Bohemian Rhapsody"] !! 0%nat
  = Some (new_song "Queen" "Bohemian Rhapsody")
  ∧ ∃ outcome row' queries,
      Genius.search_body Genius._normalize api_down 0
        {| Genius.df_songs := [new_song "Queen" "Bohemian Rhapsody"];
           Genius.log := [] |}
      = (outcome,
         {| Genius.df_songs := [row'];
            Genius.log := Genius.SearchQuery <$> queries |}).
Proof.
  split; [reflexivity|].
  destruct (search_turn Genius._normalize api_down
              {| Genius.df_songs := [new_song "Queen" "Bohemian Rhapsody"];
                 Genius.log := [] |}
              0 (new_song "Queen" "Bohemian Rhapsody") eq_refl)
    as (outcome & row' & queries & Hbody & _).
  exists outcome, row', queries. exact Hbody.
Defined.

Lemma search_stage_requests_witness :
  Genius.is_sample 400 many_songs (seq 0 400)
  ∧ (length (Genius.log
               (Genius.search_stage Genius._normalize api_down (seq 0 400)
                  {| Genius.df_songs := many_songs; Genius.log := [] |}).2)
     ≤ 800)%nat.
Proof.
  split; [exact (seq_is_sample many_songs)|].
  apply (search_stage_requests Genius._normalize api_down (seq 0 400)
           many_songs (seq_is_sample many_songs)).
Defined.

Lemma lyrics_header_is_removed_witness :
  join line_feed hey_jude_lines
  = join line_feed hey_jude_header +:+ (line_feed +:+ "Hey Jude")
  ∧ ¬ occurs (join line_feed hey_jude_header) (line_feed +:+ "Hey Jude")
  ∧ Genius.parse_lyrics
      (Genius.LyricsResponse 200 (Genius.Lyrics hey_jude_header hey_jude_lines))
    = Ok (Some (line_feed +:+ "Hey Jude")).
Proof.
  assert (¬ occurs (join line_feed hey_jude_header) (line_feed +:+ "Hey Jude"))
    as Habsent.
  { intros Hin%occurs_length. vm_compute in Hin. lia. }
  split_and!; [reflexivity | exact Habsent |].
  apply (lyrics_header_is_removed hey_jude_header hey_jude_lines
           (line_feed +:+ "Hey Jude") eq_refl Habsent).
Defined.

Lemma finished_snapshot_is_a_fixed_point_witness :
  (∀ row,
     row ∈ [finished_row "Abba" "d87e52c5" "https://genius.com/artists/Abba"] →
     mb_id row ≠ None ∧ genius_url row ≠ None)
  ∧ run unreachable_net
      [finished_row "Abba" "d87e52c5" "https://genius.com/artists/Abba"]
    = (Ok tt,
       {| df_artists :=
            [finished_row "Abba" "d87e52c5" "https://genius.com/artists/Abba"];
          log := [] |}).
Proof.
  assert (∀ row,
            row ∈ [finished_row "Abba" "d87e52c5" "https://genius.com/artists/Abba"] →
            mb_id row ≠ None ∧ genius_url row ≠ None) as Hdone.
  { intros row ->%list_elem_of_singleton. split; discriminate. }
  split; [exact Hdone|].
  apply (finished_snapshot_is_a_fixed_point unreachable_net _ Hdone).
Defined.

Lemma detail_identifiers_are_clean_witness :
  parse_artist_details (Page abba_page)
  = Ok {| i_wikidata_id := "Q254"; i_discogs_id := "81013";
          i_genius_url := Some "https://genius.com/artists/Abba" |}
  ∧ (":"%char ∉ chars "Q254")
  ∧ ("/"%char ∉ chars "81013").
Proof.
  split; [reflexivity|].
  destruct (detail_identifiers_are_clean abba_page
              {| i_wikidata_id := "Q254"; i_discogs_id := "81013";
                 i_genius_url := Some "https://genius.com/artists/Abba" |}
              eq_refl)
    as ([Hwiki _] & Hdiscogs & _).
  split; assumption.
Defined.

Lemma lower_ascii_idempotent (c : ascii) :
  lower_ascii (lower_ascii c) = lower_ascii c.
Proof.
  destruct c as [[] [] [] [] [] [] [] []]; vm_compute; reflexivity.
Qed.

Lemma lower_idempotent (s : string) : lower (lower s) = lower s.
Proof.
  induction s as [|c s IH]; [done|]. simpl.
  by rewrite lower_ascii_idempotent, IH.
Qed.

(** X19. [_normalize] ignores the case of ASCII letters: a name and its
    lower-case form have the same normal form, so that [find_song_index]
    matches names that differ by case only. *)
Theorem normalize_ignores_case (s : string) :
  is_ascii s →
  Genius._normalize (lower s) = Genius._normalize s.
Proof.
  intros _. destruct s as [|c s]; [done|].
  change (lower (String c s)) with (String (lower_ascii c) (lower s)).
  unfold Genius._normalize.
  change (String (lower_ascii c) (lower s)) with (lower (String c s)).
  by rewrite lower_idempotent.
Qed.

Lemma normalize_ignores_case_witness :
  is_ascii "HEY Jude"
  ∧ Genius._normalize (lower "HEY Jude") = Genius._normalize "HEY Jude".
Proof.
  assert (is_ascii "HEY Jude") as Hascii.
  { unfold is_ascii. repeat constructor; simpl; lia. }
  split; [done|].
  apply (normalize_ignores_case "HEY Jude" Hascii).
Defined.
